(** * A model of the Matrix long-polling client (src/matrixHttpApi.ts)

    The module keeps its session in module-level variables; here they are
    the fields of [State], threaded through a small state-and-exception
    monad.  Everything the module does to the outside world (HTTP requests,
    callback invocations, the back-off timer) is appended to the [trace]
    field, so that statements about "what the loop does next" become
    statements about lists. *)

From Stdlib Require Import Ascii String.
From stdpp Require Import gmap strings list pretty.




(** ** Types (lines 8-42 of the source) *)

Record Content := {
  msgtype : option string;
  body : option string;
}.

Record MatrixEvent := {
  event_id : option string;
  type : option string;
  sender : option string;
  content : option Content;
}.

Record Timeline := { events : option (list MatrixEvent) }.

Record JoinedRoom := { timeline : option Timeline }.

(** [invite] is a JS object used as a map whose values are never read:
    only [Object.keys] of it is taken, so it is kept as its list of keys, in
    the order [Object.keys] yields them. *)
Record Rooms := {
  invite : option (list string);
  join : option (gmap string JoinedRoom);
}.

Record SyncResponse := {
  next_batch : option string;
  rooms : option Rooms;
}.

(** A JS [Error] object, and the values a [throw] can carry: an [Error] or
    anything else (of which only [String(err)] is ever used). *)
Record Error := { message : string }.

Inductive Thrown :=
  | ThrownError (e : Error)
  | ThrownValue (asString : string).

(** How an awaited callback ends. *)
Inductive Completion :=
  | Returns
  | Throws (v : Thrown).

(** Callbacks are opaque to the module: all it can observe is whether a call
    returns or throws.  The extra [nat] is the moment of the call (the
    number of actions performed so far), so that a callback may behave
    differently from one call to the next. *)
Definition MessageCallback := string → string → nat → Completion.
Definition ErrorCallback := Error → nat → Completion.
Definition ExitCallback := nat → Completion.

Record MatrixClientConfig := {
  homeserver : string;
  botAccessToken : string;
  roomId : string;
  humanUserId : string;
  onHumanMessage : option MessageCallback;
  onError : option ErrorCallback;
  onExit : option ExitCallback;
}.

(** ** Observable actions *)

Inductive Action :=
  | ReqWhoami
  | ReqSync (sinceParam : option string) (timeoutMs : Z)
  | ReqJoin (roomIdOrAlias : string)
  (** [messageCallback(body, sender)]; the identifier of the event being
      dispatched is recorded with it, the callback does not receive it. *)
  | CallMessage (eventId body sender : string)
  | CallError (error : Error)
  | CallExit
  | Sleep (ms : Z).

(** ** Module state (lines 46-55) *)

Definition MAX_SEEN : nat := 1000.

(** [seen] is a JS [Set]: it iterates in insertion order, so it is a list
    without duplicates, oldest first. *)
Record State := {
  config : option MatrixClientConfig;
  since : option string;
  messageCallback : option MessageCallback;
  errorCallback : option ErrorCallback;
  exitCallback : option ExitCallback;
  botUserId : option string;
  running : bool;
  seen : list string;
  trace : list Action;
}.

Definition initialState : State :=
  {| config := None; since := None; messageCallback := None;
     errorCallback := None; exitCallback := None; botUserId := None;
     running := false; seen := []; trace := [] |}.

Definition set_config (c : option MatrixClientConfig) (st : State) : State :=
  {| config := c; since := since st; messageCallback := messageCallback st;
     errorCallback := errorCallback st; exitCallback := exitCallback st;
     botUserId := botUserId st; running := running st; seen := seen st;
     trace := trace st |}.

Definition set_since (c : option string) (st : State) : State :=
  {| config := config st; since := c; messageCallback := messageCallback st;
     errorCallback := errorCallback st; exitCallback := exitCallback st;
     botUserId := botUserId st; running := running st; seen := seen st;
     trace := trace st |}.

Definition set_messageCallback (c : option MessageCallback) (st : State) : State :=
  {| config := config st; since := since st; messageCallback := c;
     errorCallback := errorCallback st; exitCallback := exitCallback st;
     botUserId := botUserId st; running := running st; seen := seen st;
     trace := trace st |}.

Definition set_errorCallback (c : option ErrorCallback) (st : State) : State :=
  {| config := config st; since := since st; messageCallback := messageCallback st;
     errorCallback := c; exitCallback := exitCallback st;
     botUserId := botUserId st; running := running st; seen := seen st;
     trace := trace st |}.

Definition set_exitCallback (c : option ExitCallback) (st : State) : State :=
  {| config := config st; since := since st; messageCallback := messageCallback st;
     errorCallback := errorCallback st; exitCallback := c;
     botUserId := botUserId st; running := running st; seen := seen st;
     trace := trace st |}.

Definition set_botUserId (b : option string) (st : State) : State :=
  {| config := config st; since := since st; messageCallback := messageCallback st;
     errorCallback := errorCallback st; exitCallback := exitCallback st;
     botUserId := b; running := running st; seen := seen st;
     trace := trace st |}.

Definition set_running (r : bool) (st : State) : State :=
  {| config := config st; since := since st; messageCallback := messageCallback st;
     errorCallback := errorCallback st; exitCallback := exitCallback st;
     botUserId := botUserId st; running := r; seen := seen st;
     trace := trace st |}.

Definition set_seen (s : list string) (st : State) : State :=
  {| config := config st; since := since st; messageCallback := messageCallback st;
     errorCallback := errorCallback st; exitCallback := exitCallback st;
     botUserId := botUserId st; running := running st; seen := s;
     trace := trace st |}.

(** Append one action to the trace. *)
Definition log (a : Action) (st : State) : State :=
  {| config := config st; since := since st; messageCallback := messageCallback st;
     errorCallback := errorCallback st; exitCallback := exitCallback st;
     botUserId := botUserId st; running := running st; seen := seen st;
     trace := trace st ++ [a] |}.

(** The moment of the next action. *)
Definition now (st : State) : nat := length (trace st).

(** ** The monad: state that survives a [throw] *)

Inductive Result (A : Type) :=
  | Ok (a : A)
  | Throw (v : Thrown).
Arguments Ok {A} a.
Arguments Throw {A} v.

Definition M (A : Type) : Type := State → Result A * State.

Definition ret {A} (a : A) : M A := λ st, (Ok a, st).

Definition throw {A} (v : Thrown) : M A := λ st, (Throw v, st).

Definition bind {A B} (m : M A) (k : A → M B) : M B :=
  λ st, match m st with
        | (Ok a, st') => k a st'
        | (Throw v, st') => (Throw v, st')
        end.

Definition get : M State := λ st, (Ok st, st).

Definition modify (f : State → State) : M unit := λ st, (Ok tt, f st).

(** [try { body } catch (err) { handler(err) }] *)
Definition try_catch {A} (body : M A) (handler : Thrown → M A) : M A :=
  λ st, match body st with
        | (Ok a, st') => (Ok a, st')
        | (Throw v, st') => handler v st'
        end.

(** Perform an observable call whose outcome is decided outside the module. *)
Definition await_call (a : Action) (outcome : nat → Completion) : M unit :=
  λ st, match outcome (now st) with
        | Returns => (Ok tt, log a st)
        | Throws v => (Throw v, log a st)
        end.

(** With these instances the code below is written in stdpp's monadic
    notation: [x ← m; k] and [m;; k]. *)
#[global] Instance M_ret : MRet M := @ret.
#[global] Instance M_bind : MBind M := λ A B k m, bind m k.

(** ** JS helpers *)

(** Truthiness of a [string | undefined]: the empty string is falsy. *)
Definition truthy (o : option string) : bool :=
  match o with
  | Some s => bool_decide (s ≠ "")
  | None => false
  end.

(** The string behind a truthy value, [None] for a falsy one. *)
Definition asTruthy (o : option string) : option string :=
  if truthy o then o else None.

(** [String.prototype.toLowerCase], on the ASCII letters.  A JS string
    lower-cases to "exit" exactly when it is "exit" up to ASCII case (no
    other code point lower-cases to one of e, x, i, t alone), so for the
    comparison the source makes the restriction to ASCII loses nothing. *)
Definition lower_ascii (c : ascii) : ascii :=
  let n := nat_of_ascii c in
  if bool_decide (65 ≤ n ≤ 90)%nat then ascii_of_nat (n + 32) else c.

Fixpoint toLowerCase (s : string) : string :=
  match s with
  | EmptyString => EmptyString
  | String c s' => String (lower_ascii c) (toLowerCase s')
  end.

(** [err instanceof Error ? err : new Error(String(err))] (line 196) *)
Definition toError (err : Thrown) : Error :=
  match err with
  | ThrownError e => e
  | ThrownValue s => {| message := s |}
  end.

(** ** The [Set] of seen identifiers *)

Definition Set_has (x : string) (s : list string) : bool := bool_decide (x ∈ s).

Definition Set_add (x : string) (s : list string) : list string :=
  if Set_has x s then s else s ++ [x].

Definition Set_delete (x : string) (s : list string) : list string :=
  filter (λ y, y ≠ x) s.

(** ** The network

    The transport is an external collaborator: a reply is a parsed value or
    a thrown error (no connection, non-2xx status, unparsable body), chosen
    by the environment as a function of the moment of the request and of the
    request itself. *)
Record Network := {
  net_whoami : nat → Result string;
  net_sync : nat → option string → Z → Result SyncResponse;
  net_join : nat → string → Result unit;
}.

Section Client.

Variable net : Network.

(** [apiAsync] (lines 61-83): refuses to run before initialisation,
    otherwise issues the request and hands back the reply. *)
Definition apiAsync {A} (req : Action) (reply : nat → Result A) : M A :=
  λ st, match config st with
        | None => (Throw (ThrownError {| message := "Matrix client not initialized" |}), st)
        | Some _ => (reply (now st), log req st)
        end.

Definition whoamiAsync : M string :=
  apiAsync ReqWhoami (net_whoami net).

(** The [since] query parameter is only set for a truthy token (line 96). *)
Definition sinceParam (sinceToken : option string) : option string :=
  asTruthy sinceToken.

Definition syncOnceAsync (sinceToken : option string) (timeoutMs : Z) : M SyncResponse :=
  apiAsync (ReqSync (sinceParam sinceToken) timeoutMs)
           (λ t, net_sync net t (sinceParam sinceToken) timeoutMs).

Definition joinRoomAsync (roomIdOrAlias : string) : M unit :=
  apiAsync (ReqJoin roomIdOrAlias) (λ t, net_join net t roomIdOrAlias).

(** [stop] (lines 111-113) *)
Definition stop : M unit := modify (set_running false).

(** [shutdownAsync] (lines 115-121), the SIGTERM / SIGINT handler. *)
Definition shutdownAsync : M unit :=
  st ← get;
  match exitCallback st with
  | Some cb => await_call CallExit cb
  | None => ret tt
  end;;
  stop.

(** [handleExitAsync] (lines 123-128) *)
Definition handleExitAsync : M unit :=
  st ← get;
  match exitCallback st with
  | Some cb => await_call CallExit cb
  | None => ret tt
  end;;
  stop.

(** [evictOldSeen] (lines 130-139).  The [for ... of] loop walks the set in
    insertion order; deleting the element just visited does not disturb the
    elements still to come, so the walk is over the set as it was on entry. *)
Fixpoint evictLoop (iter : list string) (count toDelete : nat) (s : list string)
    : list string :=
  match iter with
  | [] => s
  | id :: rest =>
      if bool_decide (toDelete ≤ count) then s
      else evictLoop rest (S count) toDelete (Set_delete id s)
  end.

Definition evictOldSeen (s : list string) : list string :=
  if bool_decide (MAX_SEEN < length s)
  then evictLoop s 0 (length s - MAX_SEEN) s
  else s.

(** [seen.add(eventId); evictOldSeen();] (lines 147-148) *)
Definition recordSeen (eventId : string) (s : list string) : list string :=
  evictOldSeen (Set_add eventId s).

(** What one pass of the [for] loop of [processEventsAsync] ends with:
    [continue] (or falling off the end of the body) or [return]. *)
Inductive Control := Continue | Return.

Definition typeError (msg : string) : Thrown := ThrownError {| message := msg |}.

(** The body of the [for (const ev of events)] loop (lines 145-171).
    [config], [botUserId] and [messageCallback] are module variables and
    are read where the source reads them. *)
Definition processEvent (ev : MatrixEvent) : M Control :=
  match asTruthy (event_id ev) with
  | None => ret Continue
  | Some eventId =>
    st ← get;
    if Set_has eventId (seen st) then ret Continue else
    modify (λ st, set_seen (Set_add eventId (seen st)) st);;
    modify (λ st, set_seen (evictOldSeen (seen st)) st);;
    if bool_decide (type ev ≠ Some "m.room.message") then ret Continue else
    if bool_decide (content ev ≫= msgtype ≠ Some "m.text") then ret Continue else
    match asTruthy (sender ev), asTruthy (content ev ≫= body) with
    | Some sender, Some body =>
      st ← get;
      if bool_decide (botUserId st = Some sender) then ret Continue else
      match config st with
      | None => throw (typeError "null is not an object (evaluating 'config.humanUserId')")
      | Some cfg =>
        if bool_decide (sender = humanUserId cfg) then
          if bool_decide (toLowerCase body = "exit") then
            handleExitAsync;;
            ret Return
          else
            st ← get;
            match messageCallback st with
            | Some cb => await_call (CallMessage eventId body sender) (cb body sender)
            | None => ret tt
            end;;
            ret Continue
        else ret Continue
      end
    | _, _ => ret Continue
    end
  end.

(** The [for] loop itself.  The result tells whether the loop ran to its
    end ([Continue]) or was left by the [return] of line 164. *)
Fixpoint forEvents (evs : list MatrixEvent) : M Control :=
  match evs with
  | [] => ret Continue
  | ev :: rest =>
      c ← processEvent ev;
      match c with
      | Continue => forEvents rest
      | Return => ret Return
      end
  end.

(** [processEventsAsync] (lines 141-173) *)
Definition processEventsAsync (evs : list MatrixEvent) : M unit :=
  st ← get;
  if bool_decide (config st = None) || negb (truthy (botUserId st)) then ret tt
  else forEvents evs;; ret tt.

(** The auto-join loop (lines 187-190). *)
Fixpoint joinInvited (rids : list string) : M unit :=
  match rids with
  | [] => ret tt
  | rid :: rest => joinRoomAsync rid;; joinInvited rest
  end.

(** The [try] block of the sync loop, up to the point where the events of
    the target room have been extracted (lines 180-193). *)
Definition pollAndJoin : M (list MatrixEvent) :=
  st ← get;
  s ← syncOnceAsync (since st) 30000;
  (if truthy (next_batch s) then modify (set_since (next_batch s)) else ret tt);;
  joinInvited (default [] (rooms s ≫= invite));;
  st ← get;
  match config st with
  | None => throw (typeError "null is not an object (evaluating 'config.roomId')")
  | Some cfg =>
    let room : option JoinedRoom :=
      (rooms s ≫= join) ≫= λ joined : gmap string JoinedRoom, joined !! roomId cfg in
    ret (default [] ((room ≫= timeline) ≫= events))
  end.

(** The whole [try] block (lines 180-194). *)
Definition tryBlock : M unit :=
  evs ← pollAndJoin;
  processEventsAsync evs.

(** The [catch] block (lines 195-202).  The error callback is called
    unprotected: if it throws, the exception leaves the block. *)
Definition catchBlock (err : Thrown) : M unit :=
  let error := toError err in
  st ← get;
  match errorCallback st with
  | Some cb => await_call (CallError error) (cb error)
  | None => ret tt
  end;;
  modify (log (Sleep 2000)).

(** How the promise of [syncLoopAsync] stands when the model stops
    following it: resolved, rejected, or still running (out of fuel). *)
Inductive LoopEnd :=
  | LoopReturned
  | LoopRejected (v : Thrown)
  | LoopPending.

(** [while (running) { try { ... } catch (err) { ... } }] *)
Fixpoint whileRunning (fuel : nat) (st : State) : LoopEnd * State :=
  if running st then
    match fuel with
    | 0 => (LoopPending, st)
    | S fuel' =>
        match try_catch tryBlock catchBlock st with
        | (Ok _, st') => whileRunning fuel' st'
        | (Throw v, st') => (LoopRejected v, st')
        end
    end
  else (LoopReturned, st).

(** [syncLoopAsync] (lines 175-204) *)
Definition syncLoopAsync (fuel : nat) (st : State) : LoopEnd * State :=
  match config st with
  | None => (LoopReturned, st)
  | Some _ => whileRunning fuel st
  end.

(** [loopInBackground] (lines 206-211).  The loop is started and not
    awaited; [None] is returned when it was already running. *)
Definition loopInBackground (fuel : nat) : M (option LoopEnd) :=
  λ st, if running st then (Ok None, st)
        else let '(e, st') := syncLoopAsync fuel (set_running true st) in
             (Ok (Some e), st').

(** [initAsync] (lines 219-250).  Registering the signal handlers leaves
    the state as it is; what they do when a signal arrives is
    [shutdownAsync]. *)
Definition initAsync (fuel : nat) (cfg : MatrixClientConfig) : M (option LoopEnd) :=
  modify (set_config (Some cfg));;
  (if onHumanMessage cfg is Some cb then modify (set_messageCallback (Some cb)) else ret tt);;
  (if onError cfg is Some cb then modify (set_errorCallback (Some cb)) else ret tt);;
  (if onExit cfg is Some cb then modify (set_exitCallback (Some cb)) else ret tt);;
  me ← whoamiAsync;
  modify (set_botUserId (Some me));;
  boot ← syncOnceAsync None 0;
  modify (set_since (next_batch boot));;
  loopInBackground fuel.

(** The three setters (lines 256-273). *)
Definition onHumanMessage_set (callback : MessageCallback) : M unit :=
  modify (set_messageCallback (Some callback)).

Definition onError_set (callback : ErrorCallback) : M unit :=
  modify (set_errorCallback (Some callback)).

Definition onExit_set (callback : ExitCallback) : M unit :=
  modify (set_exitCallback (Some callback)).

End Client.

(** Several batches handed to [processEventsAsync] one after the other,
    the way successive iterations of the loop do; as in the loop, a batch
    that ends in an exception does not keep the next one from being
    processed. *)
Fixpoint feed (batches : list (list MatrixEvent)) (st : State) : State :=
  match batches with
  | [] => st
  | evs :: rest => feed rest (processEventsAsync evs st).2
  end.

(** The truthy identifiers of the events of some batches. *)
Definition batchIds (batches : list (list MatrixEvent)) : list string :=
  omap (λ ev, asTruthy (event_id ev)) (concat batches).

(** The cursors of the polls in a trace, in order. *)
Definition polls (tr : list Action) : list (option string) :=
  omap (λ a, if a is ReqSync c _ then Some c else None) tr.

(** What the checks of lines 150-162 make of an event that passed the
    dedup check; used to state what a pass of the loop does in one piece
    ([processEvent_unfold] below). *)
Inductive Verdict :=
  | Ignored
  | ExitSignal
  | Actionable (body sender : string)
  | ConfigMissing.

Definition verdict (st : State) (ev : MatrixEvent) : Verdict :=
  if bool_decide (type ev ≠ Some "m.room.message") then Ignored else
  if bool_decide (content ev ≫= msgtype ≠ Some "m.text") then Ignored else
  match asTruthy (sender ev), asTruthy (content ev ≫= body) with
  | Some sender, Some body =>
    if bool_decide (botUserId st = Some sender) then Ignored else
    match config st with
    | None => ConfigMissing
    | Some cfg =>
      if bool_decide (sender = humanUserId cfg) then
        if bool_decide (toLowerCase body = "exit") then ExitSignal
        else Actionable body sender
      else Ignored
    end
  | _, _ => Ignored
  end.

(** The part of the state that polling, joining and event processing
    leave alone. *)
Definition same_setup (st st' : State) : Prop :=
  config st' = config st ∧ messageCallback st' = messageCallback st ∧
  errorCallback st' = errorCallback st ∧ exitCallback st' = exitCallback st ∧
  botUserId st' = botUserId st.

(** What the [catch] block hands to the error callback, if there is one. *)
Definition reported (v : Thrown) (st : State) : list Action :=
  if errorCallback st is Some _ then [CallError (toError v)] else [].

(** The cursor an iteration started in [st] leaves behind: the
    [next_batch] of the reply when there is a reply with a truthy one, the
    cursor it started with otherwise. *)
Definition cursorAfterPoll (net : Network) (st : State) : option string :=
  match net_sync net (now st) (sinceParam (since st)) 30000 with
  | Ok s => if truthy (next_batch s) then next_batch s else since st
  | Throw _ => since st
  end.

(** An in-band exit command for the session configured by [cfg]: a text
    message of the human whose body is "exit" up to case. *)
Definition exitCommand (cfg : MatrixClientConfig) (ev : MatrixEvent) : Prop :=
  type ev = Some "m.room.message" ∧
  content ev ≫= msgtype = Some "m.text" ∧
  sender ev = Some (humanUserId cfg) ∧
  ∃ b, content ev ≫= body = Some b ∧ toLowerCase b = "exit".

(** A well-formed dedup window: a set, within its capacity. *)
Definition window_ok (st : State) : Prop :=
  NoDup (seen st) ∧ length (seen st) ≤ MAX_SEEN.

(** The identifier [i] sits in a well-formed window, and everything
    inserted after it comes from [others]. *)
Definition protected (i : string) (others : list string) (st : State) : Prop :=
  window_ok st ∧
  ∃ older newer, seen st = older ++ i :: newer ∧ ∀ x, x ∈ newer → x ∈ others.

(** The window after a sequence of identifiers went through
    [seen.add(id); evictOldSeen()] one after the other. *)
Definition insertAll (ids : list string) (s : list string) : list string :=
  foldl (λ w id, recordSeen id w) s ids.

(** The state after lines 220-231 of [initAsync]: the configuration is
    stored and each callback the configuration carries is registered; a slot
    the configuration leaves empty keeps what it held. *)
Definition registerConfig (cfg : MatrixClientConfig) (st : State) : State :=
  {| config := Some cfg; since := since st;
     messageCallback :=
       if onHumanMessage cfg is Some cb then Some cb else messageCallback st;
     errorCallback := if onError cfg is Some cb then Some cb else errorCallback st;
     exitCallback := if onExit cfg is Some cb then Some cb else exitCallback st;
     botUserId := botUserId st; running := running st; seen := seen st;
     trace := trace st |}.

(** The identifiers of the events handed to the message callback in a
    trace, in order. *)
Definition dispatchedIds (tr : list Action) : list string :=
  omap (λ a, if a is CallMessage i _ _ then Some i else None) tr.

(** An event the filter passes on to the message callback of the session
    configured by [cfg] with bot identity [me]. *)
Definition actionable (cfg : MatrixClientConfig) (me : option string)
    (ev : MatrixEvent) (id b s : string) : Prop :=
  event_id ev = Some id ∧ id ≠ "" ∧
  type ev = Some "m.room.message" ∧
  content ev ≫= msgtype = Some "m.text" ∧
  sender ev = Some s ∧ s ≠ "" ∧
  content ev ≫= body = Some b ∧ b ≠ "" ∧
  me ≠ Some s ∧ s = humanUserId cfg ∧ toLowerCase b ≠ "exit".

(** What the running loop may put on the trace: long polls with a cursor
    that is absent or not empty, joins, callbacks and back-offs of 2
    seconds. *)
Definition loopAction (a : Action) : Prop :=
  match a with
  | ReqWhoami => False
  | ReqSync c t => t = 30000%Z ∧ c ≠ Some ""
  | Sleep ms => ms = 2000%Z
  | _ => True
  end.



(** ** The transport in detail (lines 61-83, 104-106 and 278-289)

    Above, a request is an entry of the trace and its reply is given by the
    [Network].  Here [apiAsync] is followed down to the call of [fetch]:
    the URL, the headers and the body of the request, and what becomes of
    the response.  [fetch], [Headers], [String.prototype.slice],
    [JSON.parse], [JSON.stringify] and [encodeURIComponent] belong to the
    platform and are parameters. *)
Module Http.

(** The [RequestInit] of a call.  [headers] is the outcome of
    [new Headers(init.headers)]: a map from lower-cased header names to
    values, empty when [init.headers] is absent, or the exception thrown
    for an entry that is not a legal header. *)
Record RequestInit := {
  method : option string;
  headers : Result (gmap string string);
  body : option string;
}.

(** One call [fetch(url, { ...init, headers })]. *)
Record FetchCall := {
  url : string;
  call_method : option string;
  call_headers : gmap string string;
  call_body : option string;
}.

(** A response, as far as [apiAsync] looks at it; [text] is what
    [await res.text()] gives, which may itself fail. *)
Record Response := {
  ok : bool;
  status : nat;
  statusText : string;
  text : Result string;
}.

Inductive FetchOutcome :=
  | FetchRejects (v : Thrown)
  | FetchResolves (res : Response).

(** [headers.has(name)]: header names are compared without regard to
    (ASCII) case. *)
Definition Headers_has (name : string) (h : gmap string string) : bool :=
  bool_decide (is_Some (h !! toLowerCase name)).

Definition newline : string := String "010"%char EmptyString.

Section Transport.

Variable J : Type.
Variable fetch : FetchCall → FetchOutcome.
Variable JSON_parse : string → Result J.
Variable stringifyText : string → string.
Variable enc : string → string.

(** What [Headers.prototype.set] makes of the value it is given: the value
    it stores (the platform removes leading and trailing white space), or
    the [TypeError] it throws for a value that is not a legal header
    value. *)
Variable headerValue : string → Result string.

(** [text.slice(0, 800)]: the text up to its 800th UTF-16 code unit. *)
Variable slice800 : string → string.

(** [headers.set(name, value)], for a legal header name. *)
Definition Headers_set (name value : string) (h : gmap string string)
    : Result (gmap string string) :=
  match headerValue value with
  | Ok v => Ok (<[toLowerCase name := v]> h)
  | Throw e => Throw e
  end.

(** The message of the error thrown for a response that is not [ok]
    (lines 77-79). *)
Definition httpErrorMessage (res : Response) (path body : string) : string :=
  "HTTP " +:+ pretty (status res) +:+ " " +:+ statusText res +:+ " for " +:+ path
  +:+ newline +:+ (if bool_decide (body ≠ "") then slice800 body else "").

(** What [apiAsync] makes of the outcome of [fetch] (lines 73-82);
    [Ok None] is a [null] result. *)
Definition received (path : string) (o : FetchOutcome) : Result (option J) :=
  match o with
  | FetchRejects v => Throw v
  | FetchResolves res =>
    match text res with
    | Throw v => Throw v
    | Ok body =>
      if negb (ok res)
      then Throw (ThrownError {| message := httpErrorMessage res path body |})
      else if bool_decide (body ≠ "") then
        match JSON_parse body with
        | Ok j => Ok (Some j)
        | Throw v => Throw v
        end
      else Ok None
    end
  end.

(** [apiAsync] (lines 61-83): the calls of [fetch] made, and the outcome.
    An exception of [new Headers] or of [headers.set] (lines 65-70) leaves
    the function before [fetch] is called. *)
Definition apiAsync (path : string) (init : RequestInit) (st : State)
    : list FetchCall * Result (option J) :=
  match config st with
  | None => ([], Throw (ThrownError {| message := "Matrix client not initialized" |}))
  | Some cfg =>
    match headers init with
    | Throw e => ([], Throw e)
    | Ok h0 =>
      match Headers_set "Authorization" ("Bearer " +:+ botAccessToken cfg) h0 with
      | Throw e => ([], Throw e)
      | Ok h1 =>
        let hasBody := bool_decide (is_Some (body init)) in
        let needsContentType := hasBody && negb (Headers_has "Content-Type" h1) in
        match (if needsContentType
               then Headers_set "Content-Type" "application/json" h1 else Ok h1) with
        | Throw e => ([], Throw e)
        | Ok h2 =>
          let call := {| url := homeserver cfg +:+ path; call_method := method init;
                         call_headers := h2; call_body := body init |} in
          ([call], received path (fetch call))
        end
      end
    end
  end.

(** [joinRoomAsync] (lines 104-106) *)
Definition joinRoomAsync (roomIdOrAlias : string) (st : State)
    : list FetchCall * Result unit :=
  let '(calls, r) :=
    apiAsync ("/_matrix/client/v3/join/" +:+ enc roomIdOrAlias)
             {| method := Some "POST"; headers := Ok ∅; body := None |} st in
  (calls, match r with Ok _ => Ok tt | Throw v => Throw v end).

(** [sendMessageAsync] (lines 278-289).  [clock] is the value of
    [Date.now()] and [random] that of [Math.random().toString(16).slice(2)]
    at the call; [stringifyText message] is the JSON text of the object
    with [msgtype] "m.text" and [body] [message]. *)
Definition sendMessageAsync (clock : N) (random : string) (message : string)
    (st : State) : list FetchCall * Result unit :=
  match config st with
  | None => ([], Throw (ThrownError {| message := "Matrix client not initialized" |}))
  | Some cfg =>
    let txnId := pretty clock +:+ "-" +:+ random in
    let '(calls, r) :=
      apiAsync ("/_matrix/client/v3/rooms/" +:+ enc (roomId cfg)
                  +:+ "/send/m.room.message/" +:+ enc txnId)
               {| method := Some "PUT"; headers := Ok ∅;
                  body := Some (stringifyText message) |} st in
    (calls, match r with Ok _ => Ok tt | Throw v => Throw v end)
  end.

End Transport.

End Http.

(** The headers of a request of [Http.apiAsync], written out: [auth] and
    [ct] are the values the platform stores for the authorization and the
    content type, [h0] the headers of the caller. *)
Definition sentHeaders (auth ct : string) (h0 : gmap string string)
    (body : option string) : gmap string string :=
  let h1 := <["authorization" := auth]> h0 in
  match body, h0 !! "content-type" with
  | Some _, None => <["content-type" := ct]> h1
  | _, _ => h1
  end.

(** Whether [Http.apiAsync] sets the content type itself: there is a body
    and the caller gave no content type. *)
Definition needsContentType (h0 : gmap string string) (body : option string) : bool :=
  match body, h0 !! "content-type" with
  | Some _, None => true
  | _, _ => false
  end.

(** The events of the target room in a poll response (lines 192-193):
    none when the response has no rooms, no joined rooms, no entry for the
    room, no timeline or no events. *)
Definition targetEvents (cfg : MatrixClientConfig) (s : SyncResponse) : list MatrixEvent :=
  default [] ((((rooms s ≫= join)
                  ≫= λ joined : gmap string JoinedRoom, joined !! roomId cfg)
                 ≫= timeline) ≫= events).

(** A string of decimal digits. *)
Fixpoint all_digits (s : string) : Prop :=
  match s with
  | EmptyString => True
  | String c s' => (48 ≤ nat_of_ascii c ≤ 57)%nat ∧ all_digits s'
  end.

(** ** The entry point (src/index.ts, lines 4-11 and 17-34)

    [mainAsync] reads its settings from the environment, [process.env], a
    map from names to strings; [x ?? d] falls back to [d] only when the
    variable is not set.  The three callbacks it passes on are closures of
    the script and are parameters here. *)
Definition mainConfig (env : gmap string string)
    (onMessage : MessageCallback) (onExitCb : ExitCallback) (onErrorCb : ErrorCallback)
    : Result MatrixClientConfig :=
  let SERVER_URL := default "https://matrix.mopore.org" (env !! "MATRIX_HOMESERVER") in
  let ROOM_ID := default "" (env !! "MATRIX_ROOM_ID") in
  let HUMAN_ID := default "@jni:matrix.mopore.org" (env !! "MATRIX_USER_ID") in
  let BOT_TOKEN := default "" (env !! "MATRIX_BOT_ACCESS_TOKEN") in
  if bool_decide (BOT_TOKEN = "") || bool_decide (ROOM_ID = "")
  then Throw (ThrownError
                {| message := "Missing MATRIX_BOT_ACCESS_TOKEN or MATRIX_ROOM_ID" |})
  else Ok {| homeserver := SERVER_URL; botAccessToken := BOT_TOKEN; roomId := ROOM_ID;
             humanUserId := HUMAN_ID; onHumanMessage := Some onMessage;
             onError := Some onErrorCb; onExit := Some onExitCb |}.

(** [mainAsync] up to and including its call of [initAsync]. *)
Definition mainStart (net : Network) (fuel : nat) (env : gmap string string)
    (onMessage : MessageCallback) (onExitCb : ExitCallback) (onErrorCb : ErrorCallback)
    : M (option LoopEnd) :=
  λ st, match mainConfig env onMessage onExitCb onErrorCb with
        | Throw v => (Throw v, st)
        | Ok cfg => initAsync net fuel cfg st
        end.

(** ** Runs on which the statements below are tried *)

Module Demo.

Definition human : string := "@human:x".
Definition bot : string := "@bot:x".
Definition room : string := "!room:x".

Definition text (id from txt : string) : MatrixEvent :=
  {| event_id := Some id; type := Some "m.room.message"; sender := Some from;
     content := Some {| msgtype := Some "m.text"; body := Some txt |} |}.

Definition cfg : MatrixClientConfig :=
  {| homeserver := "https://hs"; botAccessToken := "token"; roomId := room;
     humanUserId := human;
     onHumanMessage := Some (λ _ _ _, Returns);
     onError := Some (λ _ _, Returns);
     onExit := Some (λ _, Returns) |}.

Definition response (next : string) (invited : list string) (evs : list MatrixEvent)
    : SyncResponse :=
  {| next_batch := Some next;
     rooms := Some {| invite := Some invited;
                      join := Some {[ room := {| timeline := Some {| events := Some evs |} |} ]} |} |}.

(** A server that answers every poll with the same response and accepts
    every join. *)
Definition steady (r : SyncResponse) : Network :=
  {| net_whoami := λ _, Ok bot;
     net_sync := λ _ _ _, Ok r;
     net_join := λ _ _, Ok tt |}.

(** The session of [cfg] right after a bootstrap that returned "T1". *)
Definition ready : State :=
  {| config := Some cfg; since := Some "T1";
     messageCallback := onHumanMessage cfg; errorCallback := onError cfg;
     exitCallback := onExit cfg; botUserId := Some bot; running := true;
     seen := []; trace := [] |}.

(** A server whose polls all return "T2", two invitations and one message
    of the human, and which refuses to let the bot join "!a". *)
Definition refusing : Network :=
  {| net_whoami := λ _, Ok bot;
     net_sync := λ _ _ _, Ok (response "T2" ["!a"; "!b"] [text "e1" human "hi"]);
     net_join := λ _ rid,
       if bool_decide (rid = "!a")
       then Throw (ThrownError {| message := "HTTP 403 Forbidden" |})
       else Ok tt |}.

(** The same session with an exit callback that throws. *)
Definition readyThrowingExit : State :=
  set_exitCallback (Some (λ _, Throws (ThrownError {| message := "onExit failed" |}))) ready.

(** The same session with an error callback that throws. *)
Definition readyThrowingError : State :=
  set_errorCallback (Some (λ _ _, Throws (ThrownError {| message := "onError failed" |}))) ready.

(** The same session with an exit callback and an error callback that
    both throw. *)
Definition readyThrowingBoth : State :=
  set_errorCallback (Some (λ _ _, Throws (ThrownError {| message := "onError failed" |})))
    readyThrowingExit.

(** A server whose identity lookup fails. *)
Definition unauthorized : Network :=
  {| net_whoami := λ _, Throw (ThrownError {| message := "HTTP 401 Unauthorized" |});
     net_sync := λ _ _ _, Ok (response "s1" [] []);
     net_join := λ _ _, Ok tt |}.

(** A [fetch] that answers every call with [res]. *)
Definition answering (res : Http.Response) : Http.FetchCall → Http.FetchOutcome :=
  λ _, Http.FetchResolves res.

Fixpoint dropSpaces (s : string) : string :=
  match s with
  | String c s' => if bool_decide (c = " "%char) then dropSpaces s' else s
  | EmptyString => EmptyString
  end.

Fixpoint hasLineFeed (s : string) : bool :=
  match s with
  | String c s' => bool_decide (c = "010"%char) || hasLineFeed s'
  | EmptyString => false
  end.

(** A platform's treatment of header values, as far as the examples need
    it: a value with a line feed in it is rejected, and the spaces around
    any other value are removed. *)
Definition headerValue (v : string) : Result string :=
  if hasLineFeed v
  then Throw (ThrownError {| message := "Header has invalid value" |})
  else Ok (String.rev (dropSpaces (String.rev (dropSpaces v)))).

(** The session of [ready] with a token that ends in a space, and with a
    token that holds a line feed. *)
Definition readyPadded : State :=
  set_config (Some {| homeserver := homeserver cfg; botAccessToken := "tok ";
                      roomId := roomId cfg; humanUserId := humanUserId cfg;
                      onHumanMessage := None; onError := None; onExit := None |}) ready.

Definition readyBroken : State :=
  set_config (Some {| homeserver := homeserver cfg;
                      botAccessToken := "tok" +:+ Http.newline;
                      roomId := roomId cfg; humanUserId := humanUserId cfg;
                      onHumanMessage := None; onError := None; onExit := None |}) ready.

(** A slice that keeps the text as it is, for short texts. *)
Definition slice800 (t : string) : string := t.

(** [n] distinct identifiers: "0", "1", ... *)
Definition manyIds (n : nat) : list string := pretty <$> seq 0 n.

End Demo.

(** * Properties *)

Lemma MAX_SEEN_pos : 0 < MAX_SEEN.
Proof. unfold MAX_SEEN. lia. Qed.

#[global] Opaque MAX_SEEN.

(** Unfolds the monad down to pairs and matches. *)
Ltac unfold_monad :=
  unfold handleExitAsync, shutdownAsync, stop, await_call, modify, get, throw, ret,
    mbind, M_bind, bind, try_catch in *.

(** ** The dedup window *)

Section DedupWindow.

Implicit Types (s ids : list string) (id x : string).

Lemma Set_has_true x s : Set_has x s = true ↔ x ∈ s.
Proof. unfold Set_has. by rewrite bool_decide_eq_true. Qed.

Lemma Set_has_false x s : Set_has x s = false ↔ x ∉ s.
Proof. unfold Set_has. by rewrite bool_decide_eq_false. Qed.

Lemma Set_add_fresh x s : x ∉ s → Set_add x s = s ++ [x].
Proof. intros Hx. unfold Set_add. by apply Set_has_false in Hx as ->. Qed.

Lemma Set_delete_oldest x s : NoDup (x :: s) → Set_delete x (x :: s) = s.
Proof.
  intros [Hx _]%NoDup_cons. unfold Set_delete.
  rewrite filter_cons_False by naive_solver.
  induction s as [|y s IH]; [done|].
  apply not_elem_of_cons in Hx as [Hxy Hx].
  rewrite filter_cons_True by done. by rewrite IH.
Qed.

(** The walk of [evictOldSeen] deletes from the front of the window until
    its counter reaches [toDelete]. *)
Lemma evictLoop_drop s count toDelete :
  NoDup s → evictLoop s count toDelete s = drop (toDelete - count) s.
Proof.
  revert count. induction s as [|x s IH]; intros count Hnd; simpl.
  - by rewrite drop_nil.
  - case_bool_decide as Hc.
    + by replace (toDelete - count) with 0 by lia.
    + rewrite Set_delete_oldest by done.
      rewrite IH by (by apply NoDup_cons in Hnd as [_ ?]).
      by replace (toDelete - count) with (S (toDelete - S count)) by lia.
Qed.

Lemma evictOldSeen_drop s :
  NoDup s → evictOldSeen s = drop (length s - MAX_SEEN) s.
Proof.
  intros Hnd. unfold evictOldSeen. case_bool_decide.
  - rewrite evictLoop_drop by done. f_equal. lia.
  - by replace (length s - MAX_SEEN) with 0 by lia.
Qed.

Lemma recordSeen_fresh x s :
  NoDup s → x ∉ s → recordSeen x s = drop (S (length s) - MAX_SEEN) (s ++ [x]).
Proof.
  intros Hnd Hx. unfold recordSeen. rewrite Set_add_fresh by done.
  rewrite evictOldSeen_drop.
  - rewrite length_app. simpl. f_equal. lia.
  - apply NoDup_app. split_and!; [done| |apply NoDup_singleton].
    intros y Hy ->%list_elem_of_singleton. done.
Qed.

Lemma recordSeen_known x s : x ∈ s → NoDup s → length s ≤ MAX_SEEN → recordSeen x s = s.
Proof.
  intros Hx Hnd Hlen. unfold recordSeen, Set_add.
  apply Set_has_true in Hx as ->. rewrite evictOldSeen_drop by done.
  by replace (length s - MAX_SEEN) with 0 by lia.
Qed.

(** Feeding distinct identifiers to an empty window keeps exactly the
    newest [MAX_SEEN] of them. *)
Lemma insertAll_take ids k :
  NoDup ids → k ≤ length ids →
  insertAll (take k ids) [] = drop (k - MAX_SEEN) (take k ids).
Proof.
  intros Hnd. pose proof MAX_SEEN_pos as Hpos.
  induction k as [|k IH]; intros Hk; [done|].
  destruct (lookup_lt_is_Some_2 ids k) as [x Hx]; [lia|].
  rewrite (take_S_r _ _ _ Hx). unfold insertAll in *.
  rewrite foldl_app. simpl. rewrite IH by lia.
  assert (NoDup (take k ids ++ [x])) as Hnd'.
  { rewrite <-(take_S_r _ _ _ Hx). eapply sublist_NoDup, sublist_take. done. }
  apply NoDup_app in Hnd' as (Hnd1 & Hdisj & _).
  rewrite recordSeen_fresh; cycle 1.
  { eapply sublist_NoDup, sublist_drop. done. }
  { intros Hin. apply (Hdisj x); [|by apply list_elem_of_singleton].
    eapply elem_of_sublist, sublist_drop. done. }
  rewrite length_drop, length_take.
  destruct (decide (k < MAX_SEEN)) as [Hlt|Hge].
  - replace (k - MAX_SEEN) with 0 by lia.
    replace (S (k `min` length ids - 0) - MAX_SEEN) with 0 by lia.
    replace (S k - MAX_SEEN) with 0 by lia. done.
  - replace (S (k `min` length ids - (k - MAX_SEEN)) - MAX_SEEN) with 1 by lia.
    rewrite drop_app_le by (rewrite length_drop, length_take; lia).
    rewrite drop_drop.
    rewrite (drop_app_le _ _ (S k - MAX_SEEN)) by (rewrite length_take; lia).
    do 2 f_equal. lia.
Qed.

End DedupWindow.

(** ** One pass of the event loop *)

Section Events.

Implicit Types (st : State) (ev : MatrixEvent) (id : string).

(** What one pass does, in one piece. *)
Lemma processEvent_unfold ev st :
  processEvent ev st =
  match asTruthy (event_id ev) with
  | None => (Ok Continue, st)
  | Some id =>
    if Set_has id (seen st) then (Ok Continue, st) else
    let st1 := set_seen (recordSeen id (seen st)) st in
    match verdict st ev with
    | Ignored => (Ok Continue, st1)
    | ConfigMissing =>
        (Throw (typeError "null is not an object (evaluating 'config.humanUserId')"), st1)
    | ExitSignal =>
        match exitCallback st with
        | None => (Ok Return, set_running false st1)
        | Some cb =>
            match cb (now st) with
            | Returns => (Ok Return, set_running false (log CallExit st1))
            | Throws v => (Throw v, log CallExit st1)
            end
        end
    | Actionable b s =>
        match messageCallback st with
        | None => (Ok Continue, st1)
        | Some cb =>
            match cb b s (now st) with
            | Returns => (Ok Continue, log (CallMessage id b s) st1)
            | Throws v => (Throw v, log (CallMessage id b s) st1)
            end
        end
    end
  end.
Proof.
  unfold processEvent, verdict. unfold_monad. unfold now. simpl.
  repeat (case_match; simplify_eq/=; try done).
Qed.

Lemma self_app_cons {A} (l k : list A) (x : A) : l = l ++ x :: k → False.
Proof.
  intros Heq%(f_equal length). rewrite length_app in Heq. simpl in Heq. lia.
Qed.

Lemma polls_app tr1 tr2 : polls (tr1 ++ tr2) = polls tr1 ++ polls tr2.
Proof. apply omap_app. Qed.

#[global] Instance same_setup_refl : Reflexive same_setup.
Proof. by intros st. Qed.

#[global] Instance same_setup_trans : Transitive same_setup.
Proof. intros a b c (?&?&?&?&?) (?&?&?&?&?). unfold same_setup. split_and!; congruence. Qed.

(** A pass leaves the setup and the cursor alone, extends the trace by
    callback invocations only, and clears [running] exactly when it ends in
    [return]. *)
Lemma processEvent_effect ev st r st' :
  processEvent ev st = (r, st') →
  same_setup st st' ∧ since st' = since st ∧
  (∃ tr, trace st' = trace st ++ tr ∧ polls tr = []) ∧
  match r with
  | Ok Return => running st' = false
  | _ => running st' = running st
  end.
Proof.
  rewrite processEvent_unfold. intros Hrun.
  repeat case_match; simplify_eq/=; split_and!; try done.
  all: first [ by exists [] ; rewrite app_nil_r | by eexists [_] ].
Qed.

Lemma forEvents_effect evs st r st' :
  forEvents evs st = (r, st') →
  same_setup st st' ∧ since st' = since st ∧
  (∃ tr, trace st' = trace st ++ tr ∧ polls tr = []) ∧
  match r with
  | Ok Return => running st' = false
  | _ => running st' = running st
  end.
Proof.
  revert st. induction evs as [|ev evs IH]; intros st; simpl.
  - unfold_monad. intros [= <- <-]. split_and!; try done. exists []. by rewrite app_nil_r.
  - unfold mbind, M_bind, bind.
    destruct (processEvent ev st) as [[[]|v] st1] eqn:Hev;
      apply processEvent_effect in Hev as (Hs & Hc & (tr1 & Ht1 & Hp1) & Hr).
    + intros (Hs' & Hc' & (tr2 & Ht2 & Hp2) & Hr')%IH. split_and!.
      * by etrans.
      * congruence.
      * exists (tr1 ++ tr2). rewrite Ht2, Ht1, polls_app, Hp1, Hp2. by rewrite (assoc_L (++)).
      * repeat case_match; congruence.
    + unfold ret. intros [= <- <-]. split_and!; eauto.
    + intros [= <- <-]. split_and!; eauto.
Qed.

Lemma processEventsAsync_effect evs st r st' :
  processEventsAsync evs st = (r, st') →
  same_setup st st' ∧ since st' = since st ∧
  (∃ tr, trace st' = trace st ++ tr ∧ polls tr = []) ∧
  (running st' = running st ∨ r = Ok tt ∧ running st' = false).
Proof.
  unfold processEventsAsync. unfold_monad. case_match.
  - intros [= <- <-]. split_and!; try done; [|by left]. exists []. by rewrite app_nil_r.
  - destruct (forEvents evs st) as [[c|v] st1] eqn:Hev;
      apply forEvents_effect in Hev as (Hs & Hc & Ht & Hr);
      intros [= <- <-]; split_and!; try done; [|by left].
    destruct c; auto.
Qed.

End Events.

(** ** The sync loop *)

Section Loop.

Variable net : Network.

Implicit Types (st : State) (v : Thrown).

Lemma now_log a st : now (log a st) = S (now st).
Proof. unfold now. simpl. rewrite length_app. simpl. lia. Qed.

Lemma polls_joins (rids : list string) : polls (ReqJoin <$> rids) = [].
Proof. by induction rids. Qed.

Lemma joinInvited_effect rids st r st' :
  joinInvited net rids st = (r, st') →
  same_setup st st' ∧ since st' = since st ∧ seen st' = seen st ∧
  running st' = running st ∧
  ∃ k, trace st' = trace st ++ (ReqJoin <$> take k rids).
Proof.
  revert st. induction rids as [|rid rids IH]; intros st; simpl.
  - unfold ret. intros [= <- <-]. split_and!; try done. exists 0. by rewrite app_nil_r.
  - unfold mbind, M_bind, bind, joinRoomAsync, apiAsync.
    destruct (config st) eqn:Hcfg.
    + destruct (net_join net (now st) rid).
      * intros (Hs & Hc & Hseen & Hr & k & Ht)%IH. split_and!; try done.
        exists (S k). rewrite Ht. simpl. by rewrite <-(assoc_L (++)).
      * intros [= <- <-]. split_and!; try done. by exists 1.
    + intros [= <- <-]. split_and!; try done. exists 0. by rewrite app_nil_r.
Qed.

(** When the join of [rid] is the first to fail, the rooms before it have
    been joined and those after it are not tried. *)
Lemma joinInvited_fails before rid after st v :
  is_Some (config st) →
  (∀ j r, before !! j = Some r → net_join net (now st + j) r = Ok tt) →
  net_join net (now st + length before) rid = Throw v →
  ∃ st', joinInvited net (before ++ rid :: after) st = (Throw v, st') ∧
    same_setup st st' ∧ since st' = since st ∧ seen st' = seen st ∧
    running st' = running st ∧
    trace st' = trace st ++ (ReqJoin <$> before) ++ [ReqJoin rid].
Proof.
  revert st. induction before as [|b before IH]; intros st Hcfg Hok Hfail; simpl.
  - unfold mbind, M_bind, bind, joinRoomAsync, apiAsync.
    destruct Hcfg as [cfg ->]. simpl in Hfail.
    replace (now st + 0) with (now st) in Hfail by lia. rewrite Hfail.
    eexists. split; [done|]. by split_and!.
  - unfold mbind, M_bind, bind, joinRoomAsync, apiAsync.
    destruct Hcfg as [cfg Hcfg]. rewrite Hcfg.
    specialize (Hok 0 b eq_refl) as Hb.
    replace (now st + 0) with (now st) in Hb by lia. rewrite Hb.
    destruct (IH (log (ReqJoin b) st)) as (st' & Hrun & Hs & Hc & Hseen & Hr & Ht).
    + by exists cfg.
    + intros j r Hj. rewrite now_log.
      replace (S (now st) + j) with (now st + S j) by lia. by apply Hok.
    + rewrite now_log. simpl in Hfail.
      by replace (S (now st) + length before) with (now st + S (length before)) by lia.
    + exists st'. split; [done|]. split_and!; try done.
      rewrite Ht. simpl. by rewrite <-(assoc_L (++)).
Qed.

Lemma pollAndJoin_effect st r st' :
  is_Some (config st) →
  pollAndJoin net st = (r, st') →
  same_setup st st' ∧ seen st' = seen st ∧ running st' = running st ∧
  since st' = cursorAfterPoll net st ∧
  ∃ tr, trace st' = trace st ++ ReqSync (sinceParam (since st)) 30000 :: tr ∧
        polls tr = [].
Proof.
  intros [cfg Hcfg]. unfold pollAndJoin, cursorAfterPoll, syncOnceAsync, apiAsync.
  unfold_monad. rewrite Hcfg.
  destruct (net_sync net (now st) (sinceParam (since st)) 30000) as [s|v].
  - destruct (truthy (next_batch s)); simpl.
    all: match goal with
    | |- context [joinInvited net ?rids ?st0] =>
        destruct (joinInvited net rids st0) as [[[]|v] st1] eqn:Hjoin;
        apply joinInvited_effect in Hjoin as (Hs & Hc & Hseen & Hr & k & Ht)
    end.
    all: try (assert (config st1 = Some cfg) as ->
                by (destruct Hs as [-> _]; done)).
    all: intros [= <- <-]; simpl in *; split_and!; try done.
    all: eexists; split; [by rewrite Ht, <-(assoc_L (++))|apply polls_joins].
  - intros [= <- <-]. split_and!; try done. by exists [].
Qed.

Lemma tryBlock_effect st r st' :
  is_Some (config st) →
  tryBlock net st = (r, st') →
  same_setup st st' ∧ since st' = cursorAfterPoll net st ∧
  (running st' = running st ∨ r = Ok tt ∧ running st' = false) ∧
  ∃ tr, trace st' = trace st ++ ReqSync (sinceParam (since st)) 30000 :: tr ∧
        polls tr = [].
Proof.
  intros Hcfg. unfold tryBlock, mbind, M_bind, bind.
  destruct (pollAndJoin net st) as [[evs|v] st1] eqn:Hpoll;
    apply pollAndJoin_effect in Hpoll as (Hs & Hseen & Hr & Hc & tr & Ht & Hp); try done.
  - intros (Hs' & Hc' & (tr' & Ht' & Hp') & Hr')%processEventsAsync_effect.
    split_and!.
    + by etrans.
    + congruence.
    + destruct Hr' as [?|[? ?]]; [left; congruence|by right].
    + exists (tr ++ tr'). rewrite Ht', Ht, polls_app, Hp, Hp'.
      by rewrite <-(assoc_L (++)).
  - intros [= <- <-]. split_and!; eauto.
Qed.

(** The [catch] block, when the error callback (if any) accepts the error. *)
Lemma catchBlock_returns v st :
  (∀ cb, errorCallback st = Some cb → cb (toError v) (now st) = Returns) →
  ∃ st', catchBlock v st = (Ok tt, st') ∧
    same_setup st st' ∧ since st' = since st ∧ seen st' = seen st ∧
    running st' = running st ∧
    trace st' = trace st ++ reported v st ++ [Sleep 2000].
Proof.
  intros Hcb. unfold catchBlock, reported. unfold_monad.
  destruct (errorCallback st) as [cb|] eqn:Herr.
  - rewrite (Hcb cb eq_refl). eexists. split; [done|]. split_and!; try done.
    simpl. by rewrite <-(assoc_L (++)).
  - eexists. split; [done|]. by split_and!.
Qed.

(** Whatever the error callback does, the error has been handed to it and
    nothing else has changed. *)
Lemma catchBlock_effect v st r st' :
  catchBlock v st = (r, st') →
  same_setup st st' ∧ since st' = since st ∧ seen st' = seen st ∧
  running st' = running st ∧
  ∃ tr, trace st' = trace st ++ reported v st ++ tr ∧ polls tr = [].
Proof.
  unfold catchBlock, reported. unfold_monad.
  destruct (errorCallback st) as [cb|] eqn:Herr; [destruct (cb _ _)|];
    intros [= <- <-]; split_and!; try done; simpl.
  - exists [Sleep 2000]. by rewrite <-(assoc_L (++)).
  - by exists [].
  - by exists [Sleep 2000].
Qed.

(** The two ways the [catch] block ends: after the back-off, or by the
    exception of a registered error callback, before any back-off. *)
Lemma catchBlock_cases v st r st' :
  catchBlock v st = (r, st') →
  r = Ok tt ∧ trace st' = trace st ++ reported v st ++ [Sleep 2000]
  ∨ ∃ ecb v', errorCallback st = Some ecb ∧ ecb (toError v) (now st) = Throws v' ∧
      r = Throw v' ∧ st' = log (CallError (toError v)) st.
Proof.
  unfold catchBlock, reported. unfold_monad.
  destruct (errorCallback st) as [cb|] eqn:Herr; [destruct (cb _ _) eqn:Hcb|];
    intros [= <- <-].
  - left. split; [done|]. simpl. by rewrite <-(assoc_L (++)).
  - right. by exists cb, v0.
  - by left.
Qed.

Lemma whileRunning_S fuel st :
  running st = true →
  whileRunning net (S fuel) st =
    match try_catch (tryBlock net) catchBlock st with
    | (Ok _, st') => whileRunning net fuel st'
    | (Throw v, st') => (LoopRejected v, st')
    end.
Proof. intros Hr. simpl. by rewrite Hr. Qed.

Lemma whileRunning_stopped fuel st :
  running st = false → whileRunning net fuel st = (LoopReturned, st).
Proof. intros Hr. destruct fuel; simpl; by rewrite Hr. Qed.

Lemma whileRunning_caught fuel st v st1 st2 :
  running st = true →
  tryBlock net st = (Throw v, st1) →
  catchBlock v st1 = (Ok tt, st2) →
  whileRunning net (S fuel) st = whileRunning net fuel st2.
Proof.
  intros Hr Htry Hcatch. simpl. rewrite Hr. unfold try_catch.
  by rewrite Htry, Hcatch.
Qed.

(** The trace only grows. *)
Lemma whileRunning_trace fuel st e st' :
  is_Some (config st) →
  whileRunning net fuel st = (e, st') →
  is_Some (config st') ∧ ∃ tr, trace st' = trace st ++ tr.
Proof.
  revert st. induction fuel as [|fuel IH]; intros st Hcfg; simpl.
  - destruct (running st); intros [= <- <-]; (split; [done|]);
      exists []; by rewrite app_nil_r.
  - destruct (running st); cycle 1.
    { intros [= <- <-]. split; [done|]. exists []. by rewrite app_nil_r. }
    unfold try_catch.
    destruct (tryBlock net st) as [[[]|v] st1] eqn:Htry;
      apply tryBlock_effect in Htry as (Hs & _ & _ & tr & Ht & _); try done.
    + assert (is_Some (config st1)) as Hcfg1 by (destruct Hs as [-> _]; done).
      intros (? & tr' & Ht')%IH; [|done]. split; [done|].
      eexists. by rewrite Ht', Ht, <-(assoc_L (++)).
    + assert (is_Some (config st1)) as Hcfg1 by (destruct Hs as [-> _]; done).
      destruct (catchBlock v st1) as [[[]|v'] st2] eqn:Hcatch;
        apply catchBlock_effect in Hcatch as (Hs' & _ & _ & _ & tr' & Ht' & _).
      * assert (is_Some (config st2)) as Hcfg2 by (destruct Hs' as [-> _]; done).
        intros (? & tr'' & Ht'')%IH; [|done]. split; [done|].
        eexists. by rewrite Ht'', Ht', Ht, <-!(assoc_L (++)).
      * intros [= <- <-]. split; [by destruct Hs' as [-> _]|].
        eexists. by rewrite Ht', Ht, <-!(assoc_L (++)).
Qed.

(** A running loop with fuel left polls first, with the cursor it holds. *)
Lemma whileRunning_first_poll fuel st e st' :
  is_Some (config st) → running st = true →
  whileRunning net (S fuel) st = (e, st') →
  ∃ tr, trace st' = trace st ++ ReqSync (sinceParam (since st)) 30000 :: tr.
Proof.
  intros Hcfg Hr. simpl. rewrite Hr. unfold try_catch.
  destruct (tryBlock net st) as [[[]|v] st1] eqn:Htry;
    apply tryBlock_effect in Htry as (Hs & _ & _ & tr & Ht & _); try done.
  - assert (is_Some (config st1)) as Hcfg1 by (destruct Hs as [-> _]; done).
    intros (_ & tr' & Ht')%whileRunning_trace; [|done].
    eexists. rewrite Ht', Ht, <-(assoc_L (++)). done.
  - assert (is_Some (config st1)) as Hcfg1 by (destruct Hs as [-> _]; done).
    destruct (catchBlock v st1) as [[[]|v'] st2] eqn:Hcatch;
      apply catchBlock_effect in Hcatch as (Hs' & _ & _ & _ & tr' & Ht' & _).
    + assert (is_Some (config st2)) as Hcfg2 by (destruct Hs' as [-> _]; done).
      intros (_ & tr'' & Ht'')%whileRunning_trace; [|done].
      eexists. rewrite Ht'', Ht', Ht, <-!(assoc_L (++)). done.
    + intros [= <- <-]. eexists. rewrite Ht', Ht, <-!(assoc_L (++)). done.
Qed.

Lemma polls_reported v st : polls (reported v st) = [].
Proof. unfold reported. by destruct (errorCallback st). Qed.

(** The first poll of whatever the loop still does, if it polls at all, is
    made with the cursor the loop holds. *)
Lemma whileRunning_poll_head fuel st e st' :
  is_Some (config st) →
  whileRunning net fuel st = (e, st') →
  ∃ tr, trace st' = trace st ++ tr ∧
        ∀ c, polls tr !! 0 = Some c → c = sinceParam (since st).
Proof.
  intros Hcfg Hloop. destruct (running st) eqn:Hr; cycle 1.
  { rewrite whileRunning_stopped in Hloop by done. injection Hloop as <- <-.
    exists []. by rewrite app_nil_r. }
  destruct fuel as [|fuel].
  { simpl in Hloop. rewrite Hr in Hloop. injection Hloop as <- <-.
    exists []. by rewrite app_nil_r. }
  apply whileRunning_first_poll in Hloop as [tr Ht]; [|done..].
  eexists. split; [done|]. simpl. by intros c [= <-].
Qed.

(** The polls of a running loop: the first with the cursor it holds, the
    second, if there is one, with the cursor the first iteration left. *)
Lemma whileRunning_polls fuel st e st' :
  is_Some (config st) → running st = true →
  whileRunning net (S fuel) st = (e, st') →
  ∃ tr, trace st' = trace st ++ tr ∧
    polls tr !! 0 = Some (sinceParam (since st)) ∧
    ∀ c, polls tr !! 1 = Some c → c = sinceParam (cursorAfterPoll net st).
Proof.
  intros Hcfg Hr. simpl. rewrite Hr. unfold try_catch.
  destruct (tryBlock net st) as [[[]|v] st1] eqn:Htry;
    apply tryBlock_effect in Htry as (Hs & Hc & _ & tr & Ht & Hp); try done.
  all: assert (is_Some (config st1)) as Hcfg1 by (destruct Hs as [-> _]; done).
  - intros (tr' & Ht' & Hhead)%whileRunning_poll_head; [|done].
    exists (ReqSync (sinceParam (since st)) 30000 :: tr ++ tr').
    split; [by rewrite Ht', Ht, <-(assoc_L (++))|].
    simpl. rewrite polls_app, Hp. simpl. split; [done|].
    intros c Hc1. rewrite <-Hc. by apply Hhead.
  - destruct (catchBlock v st1) as [[[]|v'] st2] eqn:Hcatch;
      apply catchBlock_effect in Hcatch as (Hs' & Hc' & _ & _ & tr' & Ht' & Hp').
    + assert (is_Some (config st2)) as Hcfg2 by (destruct Hs' as [-> _]; done).
      intros (tr'' & Ht'' & Hhead)%whileRunning_poll_head; [|done].
      exists (ReqSync (sinceParam (since st)) 30000 :: tr ++ reported v st1 ++ tr' ++ tr'').
      split; [by rewrite Ht'', Ht', Ht, <-!(assoc_L (++))|].
      simpl. rewrite !polls_app, Hp, Hp', polls_reported. simpl. split; [done|].
      intros c Hc1. rewrite <-Hc, <-Hc'. by apply Hhead.
    + intros [= <- <-].
      exists (ReqSync (sinceParam (since st)) 30000 :: tr ++ reported v st1 ++ tr').
      split; [by rewrite Ht', Ht, <-!(assoc_L (++))|].
      simpl. by rewrite !polls_app, Hp, Hp', polls_reported.
Qed.

(** A running loop with fuel for two iterations makes a second poll, with
    the cursor the first iteration left, unless the first iteration stopped
    the loop or the error callback threw. *)
Lemma whileRunning_next_poll fuel st e st' :
  is_Some (config st) → running st = true →
  whileRunning net (S (S fuel)) st = (e, st') →
  (∃ tr1 tr2,
      trace st' = trace st ++ ReqSync (sinceParam (since st)) 30000 :: tr1
                    ++ ReqSync (sinceParam (cursorAfterPoll net st)) 30000 :: tr2 ∧
      polls tr1 = [])
  ∨ (e = LoopReturned ∧ running st' = false ∧ tryBlock net st = (Ok tt, st'))
  ∨ (∃ v v' st1 ecb, tryBlock net st = (Throw v, st1) ∧
       errorCallback st = Some ecb ∧ ecb (toError v) (now st1) = Throws v' ∧
       e = LoopRejected v').
Proof.
  intros Hcfg Hr. rewrite whileRunning_S by done. unfold try_catch.
  destruct (tryBlock net st) as [[[]|v] st1] eqn:Htry;
    pose proof Htry as (Hs & Hc & Hr1 & tr & Ht & Hp)%tryBlock_effect; try done.
  all: assert (is_Some (config st1)) as Hcfg1 by (destruct Hs as [-> _]; done).
  - destruct (running st1) eqn:Hrun1.
    + intros (tr2 & Ht2)%whileRunning_first_poll; [|done..].
      left. exists tr, tr2. split; [|done].
      by rewrite Ht2, Ht, Hc, <-(assoc_L (++)).
    + rewrite whileRunning_stopped by done. intros [= <- <-]. right. by left.
  - destruct Hr1 as [Hr1|[? _]]; [|done].
    destruct (catchBlock v st1) as [r2 st2] eqn:Hcatch.
    pose proof Hcatch as (Hs' & Hc' & _ & Hr' & _)%catchBlock_effect.
    apply catchBlock_cases in Hcatch as [[-> Ht']|(ecb & v' & Hecb & Hthrow & -> & ->)].
    + intros (tr2 & Ht2)%whileRunning_first_poll;
        [|by destruct Hs' as [-> _]|congruence].
      left. exists (tr ++ reported v st1 ++ [Sleep 2000]), tr2. split.
      * by rewrite Ht2, Ht', Ht, Hc', Hc, <-!(assoc_L (++)).
      * rewrite !polls_app, Hp, polls_reported. done.
    + intros [= <- <-]. right. right. exists v, v', st1, ecb.
      split_and!; try done. destruct Hs as (_ & _ & <- & _). done.
Qed.

(** An exception leaving the [try] block, with an error callback that
    accepts it (or none): the loop reports, backs off and polls again. *)
Lemma caught_continues st v st1 :
  is_Some (config st) → running st = true →
  tryBlock net st = (Throw v, st1) →
  (∀ ecb, errorCallback st = Some ecb → ecb (toError v) (now st1) = Returns) →
  ∃ st2,
    (∀ fuel, whileRunning net (S fuel) st = whileRunning net fuel st2) ∧
    trace st2 = trace st1 ++ reported v st ++ [Sleep 2000] ∧
    running st2 = true ∧ since st2 = since st1 ∧ seen st2 = seen st1 ∧
    ∀ fuel e st', whileRunning net (S (S fuel)) st = (e, st') →
      ∃ tr, trace st' = trace st2 ++ ReqSync (sinceParam (since st1)) 30000 :: tr.
Proof.
  intros Hcfg Hr Htry Hecb.
  pose proof Htry as (Hs & _ & Hr1 & _)%tryBlock_effect; [|done].
  destruct Hr1 as [Hr1|[? _]]; [|done].
  pose proof Hs as (Hs1 & _ & Hs3 & _).
  destruct (catchBlock_returns v st1) as (st2 & Hcatch & Hs' & Hc' & Hseen' & Hr' & Ht').
  { intros ecb Hcb. apply Hecb. congruence. }
  exists st2.
  assert (∀ fuel, whileRunning net (S fuel) st = whileRunning net fuel st2) as Hstep.
  { intros fuel. by eapply whileRunning_caught. }
  split_and!; try done.
  - rewrite Ht'. unfold reported. by rewrite Hs3.
  - congruence.
  - intros fuel e st' Hloop. rewrite Hstep in Hloop.
    apply whileRunning_first_poll in Hloop as [tr Ht]; [| |congruence].
    + exists tr. by rewrite Ht, Hc'.
    + destruct Hs' as [-> _]. by rewrite Hs1.
Qed.

End Loop.

(** ** At most one dispatch per identifier *)

Section Dedup.

Implicit Types (st : State) (ev : MatrixEvent) (i j : string) (others : list string).

Lemma recordSeen_window j s :
  NoDup s → length s ≤ MAX_SEEN → j ∉ s →
  NoDup (recordSeen j s) ∧ length (recordSeen j s) ≤ MAX_SEEN ∧
  ∃ k, k ≤ length s ∧ recordSeen j s = drop k s ++ [j].
Proof.
  intros Hnd Hlen Hj. pose proof MAX_SEEN_pos.
  rewrite recordSeen_fresh by done.
  assert (NoDup (s ++ [j])) as Hnd'.
  { apply NoDup_app. split_and!; [done| |apply NoDup_singleton].
    by intros y Hy ->%list_elem_of_singleton. }
  split_and!.
  - eapply sublist_NoDup, sublist_drop. done.
  - rewrite length_drop, length_app. simpl. lia.
  - exists (S (length s) - MAX_SEEN). split; [lia|]. by rewrite drop_app_le by lia.
Qed.

Lemma recordSeen_protected i others j s older newer :
  NoDup s → length s ≤ MAX_SEEN → s = older ++ i :: newer →
  (∀ x, x ∈ newer → x ∈ others) → j ∈ others → j ∉ s →
  length (remove_dups others) < MAX_SEEN →
  ∃ older', recordSeen j s = older' ++ i :: (newer ++ [j]).
Proof.
  intros Hnd Hlen -> Hnewer Hjo Hj Hcap.
  rewrite recordSeen_fresh by done.
  assert (length (newer ++ [j]) ≤ length (remove_dups others)) as Hroom.
  { apply submseteq_length, NoDup_submseteq.
    - apply NoDup_app in Hnd as (_ & _ & [_ Hn]%NoDup_cons).
      apply NoDup_app. split_and!; [done| |apply NoDup_singleton].
      intros y Hy ->%list_elem_of_singleton. apply Hj. set_solver.
    - intros x [Hx| ->%list_elem_of_singleton]%elem_of_app;
        apply elem_of_remove_dups; auto. }
  rewrite !length_app in *. simpl in *.
  destruct (decide (length older + S (length newer) < MAX_SEEN)) as [Hlt|Hfull].
  - replace (S (length older + S (length newer)) - MAX_SEEN) with 0 by lia.
    exists older. simpl. by rewrite <-(assoc_L (++)).
  - replace (S (length older + S (length newer)) - MAX_SEEN) with 1 by lia.
    destruct older as [|o older]; simpl in *; [lia|].
    exists older. rewrite drop_0. by rewrite <-(assoc_L (++)).
Qed.

(** A pass keeps the window well formed. *)
Lemma processEvent_window ev st r st' :
  window_ok st → processEvent ev st = (r, st') → window_ok st'.
Proof.
  intros [Hnd Hlen]. rewrite processEvent_unfold. unfold window_ok.
  destruct (asTruthy (event_id ev)) as [j|]; [|by intros [= <- <-]].
  destruct (Set_has j (seen st)) eqn:Hhas; [by intros [= <- <-]|].
  apply Set_has_false in Hhas.
  destruct (recordSeen_window j (seen st)) as (? & ? & _); [done..|].
  intros Hrun. repeat case_match; by simplify_eq/=.
Qed.

(** While [i] is protected it is not dispatched again, and stays protected. *)
Lemma processEvent_protected i others ev st r st' :
  protected i others st →
  (∀ j, asTruthy (event_id ev) = Some j → j ≠ i → j ∈ others) →
  length (remove_dups others) < MAX_SEEN →
  processEvent ev st = (r, st') →
  protected i others st' ∧
  ∃ tr, trace st' = trace st ++ tr ∧ ∀ b s, CallMessage i b s ∉ tr.
Proof.
  intros Hprot Hids Hcap. pose proof Hprot as ([Hnd Hlen] & older & newer & Hseen & Hnewer).
  rewrite processEvent_unfold.
  destruct (asTruthy (event_id ev)) as [j|]; cycle 1.
  { intros [= <- <-]. split; [done|]. exists []. rewrite app_nil_r.
    split; [done|]. intros ? ?. apply not_elem_of_nil. }
  destruct (Set_has j (seen st)) eqn:Hhas.
  { intros [= <- <-]. split; [done|]. exists []. rewrite app_nil_r.
    split; [done|]. intros ? ?. apply not_elem_of_nil. }
  apply Set_has_false in Hhas.
  assert (j ≠ i) as Hji.
  { intros ->. apply Hhas. rewrite Hseen. apply elem_of_app. right. apply list_elem_of_here. }
  destruct (recordSeen_window j (seen st)) as (Hnd' & Hlen' & _); [done..|].
  destruct (recordSeen_protected i others j (seen st) older newer) as [older' Hseen'];
    [by auto..|].
  assert (∀ x, x ∈ newer ++ [j] → x ∈ others) as Hnewer'.
  { intros x [?| ->%list_elem_of_singleton]%elem_of_app; auto. }
  intros Hrun.
  assert (seen st' = recordSeen j (seen st) ∧
          ∃ tr, trace st' = trace st ++ tr ∧ ∀ b s, CallMessage i b s ∉ tr) as [Hst' Htr].
  { repeat case_match; simplify_eq/=; (split; [done|]).
    all: first [ exists []; rewrite app_nil_r; split; [done|];
                 intros ? ?; apply not_elem_of_nil
               | eexists [_]; split; [done|];
                 intros ? ? ?%list_elem_of_singleton; congruence ]. }
  split; [|done]. split; [by unfold window_ok; rewrite Hst'|].
  exists older', (newer ++ [j]). by rewrite Hst'.
Qed.

Lemma forEvents_protected i others evs st r st' :
  protected i others st →
  (∀ ev j, ev ∈ evs → asTruthy (event_id ev) = Some j → j ≠ i → j ∈ others) →
  length (remove_dups others) < MAX_SEEN →
  forEvents evs st = (r, st') →
  protected i others st' ∧
  ∃ tr, trace st' = trace st ++ tr ∧ ∀ b s, CallMessage i b s ∉ tr.
Proof.
  intros Hprot Hids Hcap. revert st Hprot.
  induction evs as [|ev evs IH]; intros st Hprot; simpl.
  - intros [= <- <-]. split; [done|]. exists []. rewrite app_nil_r.
    split; [done|]. intros ? ?. apply not_elem_of_nil.
  - unfold mbind, M_bind, bind.
    destruct (processEvent ev st) as [[c|v] st1] eqn:Hev;
      eapply processEvent_protected in Hev as (Hprot1 & tr1 & Ht1 & Hno1);
      try done; try (intros; eapply Hids; [apply list_elem_of_here|done..]).
    + destruct c; [|by intros [= <- <-]; eauto].
      intros (Hprot2 & tr2 & Ht2 & Hno2)%IH; [| |done].
      * split; [done|]. exists (tr1 ++ tr2). rewrite Ht2, Ht1, (assoc_L (++)).
        split; [done|]. intros b s [?|?]%elem_of_app; [by eapply Hno1|by eapply Hno2].
      * intros ev' j Hin. apply Hids. by apply list_elem_of_further.
    + intros [= <- <-]. eauto.
Qed.

Lemma feed_protected i others batches st :
  protected i others st →
  (∀ j, j ∈ batchIds batches → j ≠ i → j ∈ others) →
  length (remove_dups others) < MAX_SEEN →
  protected i others (feed batches st) ∧
  ∃ tr, trace (feed batches st) = trace st ++ tr ∧ ∀ b s, CallMessage i b s ∉ tr.
Proof.
  intros Hprot Hids Hcap. revert st Hprot.
  induction batches as [|evs batches IH]; intros st Hprot; simpl.
  - split; [done|]. exists []. rewrite app_nil_r.
    split; [done|]. intros ? ?. apply not_elem_of_nil.
  - assert (protected i others (processEventsAsync evs st).2 ∧
            ∃ tr, trace (processEventsAsync evs st).2 = trace st ++ tr ∧
                  ∀ b s, CallMessage i b s ∉ tr) as (Hprot1 & tr1 & Ht1 & Hno1).
    { unfold processEventsAsync, get, ret, mbind, M_bind, bind.
      case_match; simpl.
      { split; [done|]. exists []. rewrite app_nil_r.
        split; [done|]. intros ? ?. apply not_elem_of_nil. }
      destruct (forEvents evs st) as [[c|v] st1] eqn:Hev;
        eapply forEvents_protected in Hev; try done.
      all: intros ev j Hin Hid; apply Hids; unfold batchIds; simpl;
        rewrite omap_app; apply elem_of_app; left; apply list_elem_of_omap; eauto. }
    destruct (IH) with (st := (processEventsAsync evs st).2)
      as (Hprot2 & tr2 & Ht2 & Hno2); [|done|].
    { intros j Hin. apply Hids. unfold batchIds in *. simpl.
      rewrite omap_app. apply elem_of_app. by right. }
    split; [done|]. exists (tr1 ++ tr2). rewrite Ht2, Ht1, (assoc_L (++)).
    split; [done|]. intros b s [?|?]%elem_of_app; [by eapply Hno1|by eapply Hno2].
Qed.

End Dedup.

(** ** Every state the session reaches has a well-formed window *)

Section Reachable.

Variable net : Network.

Lemma window_ok_initial : window_ok initialState.
Proof. split; [apply NoDup_nil_2|simpl; lia]. Qed.

Lemma forEvents_window evs st r st' :
  window_ok st → forEvents evs st = (r, st') → window_ok st'.
Proof.
  revert st. induction evs as [|ev evs IH]; intros st Hok; simpl.
  - by intros [= <- <-].
  - unfold mbind, M_bind, bind.
    destruct (processEvent ev st) as [[[]|v] st1] eqn:Hev;
      apply processEvent_window in Hev; try done.
    + by apply IH.
    + by intros [= <- <-].
    + by intros [= <- <-].
Qed.

Lemma processEventsAsync_window evs st r st' :
  window_ok st → processEventsAsync evs st = (r, st') → window_ok st'.
Proof.
  intros Hok. unfold processEventsAsync, get, ret, mbind, M_bind, bind.
  case_match; [by intros [= <- <-]|].
  destruct (forEvents evs st) as [[c|v] st1] eqn:Hev;
    apply forEvents_window in Hev; try done; by intros [= <- <-].
Qed.

Lemma feed_window batches st : window_ok st → window_ok (feed batches st).
Proof.
  revert st. induction batches as [|evs batches IH]; intros st Hok; [done|].
  simpl. apply IH. destruct (processEventsAsync evs st) as [r st1] eqn:Hev.
  by eapply processEventsAsync_window.
Qed.

Lemma tryBlock_window st r st' :
  is_Some (config st) → window_ok st → tryBlock net st = (r, st') → window_ok st'.
Proof.
  intros Hcfg Hok. unfold tryBlock, mbind, M_bind, bind.
  destruct (pollAndJoin net st) as [[evs|v] st1] eqn:Hpoll;
    apply pollAndJoin_effect in Hpoll as (_ & Hseen & _); try done.
  - apply processEventsAsync_window. unfold window_ok. by rewrite Hseen.
  - intros [= <- <-]. unfold window_ok. by rewrite Hseen.
Qed.

Lemma whileRunning_window fuel st e st' :
  is_Some (config st) → window_ok st →
  whileRunning net fuel st = (e, st') → window_ok st'.
Proof.
  revert st. induction fuel as [|fuel IH]; intros st Hcfg Hok; simpl.
  - by destruct (running st); intros [= <- <-].
  - destruct (running st); [|by intros [= <- <-]]. unfold try_catch.
    destruct (tryBlock net st) as [[[]|v] st1] eqn:Htry.
    + pose proof Htry as ([Hc _] & _)%tryBlock_effect; [|done].
      apply tryBlock_window in Htry; [|done..].
      apply IH; [by rewrite Hc|done].
    + pose proof Htry as ([Hc _] & _)%tryBlock_effect; [|done].
      apply tryBlock_window in Htry; [|done..].
      destruct (catchBlock v st1) as [[[]|v'] st2] eqn:Hcatch;
        apply catchBlock_effect in Hcatch as ([Hc' _] & _ & Hseen & _).
      * apply IH; [by rewrite Hc', Hc|]. unfold window_ok. by rewrite Hseen.
      * intros [= <- <-]. unfold window_ok. by rewrite Hseen.
Qed.

End Reachable.

(** ** What the checks make of an event *)

Section Filter.

Implicit Types (st : State) (ev : MatrixEvent) (cfg : MatrixClientConfig).

Lemma asTruthy_Some o s : asTruthy o = Some s ↔ o = Some s ∧ s ≠ "".
Proof.
  unfold asTruthy, truthy. destruct o as [s'|]; [|by split; [|intros []]].
  case_bool_decide; split; try done.
  - by intros [= <-].
  - by intros [[= <-] ?].
  - by intros [[= <-] ?].
Qed.

Lemma verdict_ignored st cfg ev :
  config st = Some cfg →
  sender ev = botUserId st ∨ sender ev ≠ Some (humanUserId cfg) →
  verdict st ev = Ignored.
Proof.
  intros Hcfg Hsender. unfold verdict. rewrite Hcfg.
  case_bool_decide; [done|]. case_bool_decide; [done|].
  destruct (asTruthy (sender ev)) as [s|] eqn:Hs; [|done].
  destruct (asTruthy (content ev ≫= body)); [|done].
  apply asTruthy_Some in Hs as [Hs _].
  case_bool_decide; [done|]. case_bool_decide; [|done].
  destruct Hsender; congruence.
Qed.

Lemma toLowerCase_exit_nonempty b : toLowerCase b = "exit" → b ≠ "".
Proof. by intros Hb ->. Qed.

Lemma exitCommand_verdict st cfg ev :
  config st = Some cfg → exitCommand cfg ev →
  humanUserId cfg ≠ "" → botUserId st ≠ Some (humanUserId cfg) →
  verdict st ev = ExitSignal.
Proof.
  intros Hcfg (Htype & Hmsg & Hsender & b & Hbody & Hexit) Hhuman Hbot.
  unfold verdict. rewrite Hcfg, Htype, Hmsg, Hsender, Hbody.
  rewrite !bool_decide_eq_false_2 by naive_solver.
  assert (asTruthy (Some (humanUserId cfg)) = Some (humanUserId cfg)) as ->
    by by apply asTruthy_Some.
  assert (asTruthy (Some b) = Some b) as ->
    by by apply asTruthy_Some, conj, toLowerCase_exit_nonempty.
  rewrite bool_decide_eq_false_2 by done.
  by rewrite !bool_decide_eq_true_2 by done.
Qed.

(** The pass over a new exit command. *)
Lemma exit_pass st cfg ev id :
  config st = Some cfg →
  humanUserId cfg ≠ "" → botUserId st ≠ Some (humanUserId cfg) →
  asTruthy (event_id ev) = Some id → id ∉ seen st → exitCommand cfg ev →
  processEvent ev st =
    let st1 := set_seen (recordSeen id (seen st)) st in
    match exitCallback st with
    | None => (Ok Return, set_running false st1)
    | Some cb =>
        match cb (now st) with
        | Returns => (Ok Return, set_running false (log CallExit st1))
        | Throws v => (Throw v, log CallExit st1)
        end
    end.
Proof.
  intros Hcfg Hhuman Hbot Hid Hnew Hexit. rewrite processEvent_unfold, Hid.
  apply Set_has_false in Hnew as ->.
  by rewrite (exitCommand_verdict st cfg ev).
Qed.

Lemma forEvents_app pre evs st st_c :
  forEvents pre st = (Ok Continue, st_c) →
  forEvents (pre ++ evs) st = forEvents evs st_c.
Proof.
  revert st. induction pre as [|ev pre IH]; intros st; simpl.
  - by intros [= <-].
  - unfold mbind, M_bind, bind.
    destruct (processEvent ev st) as [[[]|v] st1]; try done. apply IH.
Qed.

End Filter.

(** * The properties of the specification *)

(** C7 (eviction bound).  Let more than [MAX_SEEN] = 1000 distinct
    identifiers go through insert-and-evict, starting from an empty window.
    After each step [k], the window holds at most 1000 identifiers, and each
    of the 1000 most recent of the first [k] identifiers is in it.  Every
    eviction pass over a window (a set) removes its [size - MAX_SEEN] oldest
    entries and no other. *)
Theorem eviction_bound (ids : list string) (k : nat) :
  NoDup ids → MAX_SEEN < length ids → k ≤ length ids →
  length (insertAll (take k ids) []) ≤ MAX_SEEN
  ∧ (∀ j id, k - MAX_SEEN ≤ j < k → ids !! j = Some id →
       id ∈ insertAll (take k ids) [])
  ∧ (∀ s, NoDup s → evictOldSeen s = drop (length s - MAX_SEEN) s).
Proof.
  intros Hnd _ Hk. rewrite insertAll_take by done. split_and!.
  - rewrite length_drop, length_take. lia.
  - intros j id Hj Hid. apply list_elem_of_lookup.
    exists (j - (k - MAX_SEEN)). rewrite lookup_drop, lookup_take_lt by lia.
    rewrite <-Hid. f_equal. lia.
  - apply evictOldSeen_drop.
Qed.

Lemma eviction_bound_witness :
  NoDup (Demo.manyIds 1001) ∧ MAX_SEEN < length (Demo.manyIds 1001) ∧
  length (insertAll (take 1001 (Demo.manyIds 1001)) []) ≤ MAX_SEEN.
Proof.
  assert (NoDup (Demo.manyIds 1001)) as Hnd.
  { apply NoDup_fmap_2; [apply _|apply NoDup_seq]. }
  assert (length (Demo.manyIds 1001) = 1001) as Hlen.
  { unfold Demo.manyIds. by rewrite length_fmap, length_seq. }
  assert (MAX_SEEN < 1001) as Hmax by (vm_compute; lia).
  split_and!; [done|by rewrite Hlen|].
  apply (eviction_bound (Demo.manyIds 1001) 1001); [done|by rewrite Hlen|by rewrite Hlen].
Defined.

(** C2 (dedup).  Take a pass of the event filter, in a session whose
    window is well formed, that dispatches an event with identifier [i] to
    the message callback.  That pass has put [i] into the window (check and
    insertion go together), and whatever batches are fed to the filter
    afterwards, no event with identifier [i] is dispatched again as long as
    fewer than [MAX_SEEN] other distinct identifiers come with them, which
    is as long as [i] stays within the window. *)
Theorem dispatched_at_most_once
    (st st1 : State) (ev : MatrixEvent) (r : Result Control)
    (i body sender : string) (batches : list (list MatrixEvent)) :
  window_ok st →
  processEvent ev st = (r, st1) →
  trace st1 = trace st ++ [CallMessage i body sender] →
  length (remove_dups (filter (λ j, j ≠ i) (batchIds batches))) < MAX_SEEN →
  (i ∉ seen st) ∧ i ∈ seen st1 ∧
  ∃ tr, trace (feed batches st1) = trace st1 ++ tr ∧
        ∀ body' sender', CallMessage i body' sender' ∉ tr.
Proof.
  intros [Hnd Hlen] Hrun Htrace Hcap.
  assert ((i ∉ seen st) ∧ ∃ k, seen st1 = drop k (seen st) ++ [i]) as [Hnew [k Hseen1]].
  { rewrite processEvent_unfold in Hrun.
    destruct (asTruthy (event_id ev)) as [j|]; cycle 1.
    { injection Hrun as <- <-. by apply self_app_cons in Htrace. }
    destruct (Set_has j (seen st)) eqn:Hhas.
    { injection Hrun as <- <-. by apply self_app_cons in Htrace. }
    apply Set_has_false in Hhas.
    destruct (recordSeen_window j (seen st)) as (_ & _ & k & _ & Hk); [done..|].
    repeat case_match; injection Hrun as <- <-; simpl in Htrace.
    all: try (by apply self_app_cons in Htrace).
    all: apply app_inv_head in Htrace; simplify_eq; eauto. }
  assert (window_ok st1) as Hok1 by (by eapply processEvent_window).
  split; [done|]. split.
  { rewrite Hseen1. apply elem_of_app. right. apply list_elem_of_here. }
  apply (feed_protected i (filter (λ j, j ≠ i) (batchIds batches))); [|by intros; apply list_elem_of_filter|done].
  split; [done|]. exists (drop k (seen st)), []. split; [done|].
  by intros x ?%not_elem_of_nil.
Qed.

Lemma dispatched_at_most_once_witness :
  let hi := Demo.text "e1" Demo.human "hi" in
  let st1 := (processEvent hi Demo.ready).2 in
  let later := [[hi; Demo.text "e2" Demo.human "again"]; [hi]] in
  ∃ tr, trace (feed later st1) = trace st1 ++ tr ∧
        ∀ body' sender', CallMessage "e1" body' sender' ∉ tr.
Proof.
  intros hi st1 later.
  refine (proj2 (proj2 (dispatched_at_most_once Demo.ready st1 hi
            (processEvent hi Demo.ready).1 "e1" "hi" Demo.human later _ _ _ _))).
  - split; [apply NoDup_nil_2|simpl; lia].
  - reflexivity.
  - reflexivity.
  - vm_compute. lia.
Defined.

(** C8 (self-echo and sender filter).  In an initialised session, a pass
    over an event whose sender is the bot itself, or is not the configured
    human, ends in [continue] without any callback having been invoked and
    with the running flag as it was: the event is not dispatched and does
    not trigger the exit path, whatever its body. *)
Theorem sender_filters
    (st st' : State) (cfg : MatrixClientConfig) (ev : MatrixEvent) (r : Result Control) :
  config st = Some cfg →
  sender ev = botUserId st ∨ sender ev ≠ Some (humanUserId cfg) →
  processEvent ev st = (r, st') →
  r = Ok Continue ∧ trace st' = trace st ∧ running st' = running st.
Proof.
  intros Hcfg Hsender. rewrite processEvent_unfold.
  rewrite (verdict_ignored st cfg ev Hcfg Hsender).
  intros Hrun. by repeat case_match; simplify_eq/=.
Qed.

Lemma sender_filters_witness :
  let echo := Demo.text "e9" Demo.bot "exit" in
  (processEvent echo Demo.ready).1 = Ok Continue ∧
  trace (processEvent echo Demo.ready).2 = trace Demo.ready ∧
  running (processEvent echo Demo.ready).2 = running Demo.ready.
Proof.
  intros echo.
  apply (sender_filters Demo.ready _ Demo.cfg echo); [reflexivity|by left|reflexivity].
Defined.




(** C9 (bootstrap).  In a session that is not running yet, when the
    identity lookup answers [me] and the poll that follows answers [boot],
    initialisation performs exactly these two requests, the poll being
    without cursor and with a zero wait, before it starts the loop; the loop
    starts with [next_batch boot] as its cursor, an untouched dedup window
    and no callback invoked, whatever events [boot] carries.  With any fuel
    at all the loop's first request is a poll with that cursor. *)
Theorem bootstrap_adopts_cursor
    (net : Network) (cfg : MatrixClientConfig) (st : State)
    (me : string) (boot : SyncResponse) (fuel : nat) :
  running st = false →
  net_whoami net (now st) = Ok me →
  net_sync net (S (now st)) None 0 = Ok boot →
  ∃ st0,
    initAsync net fuel cfg st =
      (Ok (Some (whileRunning net fuel st0).1), (whileRunning net fuel st0).2) ∧
    trace st0 = trace st ++ [ReqWhoami; ReqSync None 0] ∧
    since st0 = next_batch boot ∧
    seen st0 = seen st ∧
    running st0 = true ∧
    config st0 = Some cfg ∧
    botUserId st0 = Some me ∧
    (∀ e st', fuel ≠ 0 → whileRunning net fuel st0 = (e, st') →
       ∃ tr, trace st' = trace st0 ++ ReqSync (sinceParam (next_batch boot)) 30000 :: tr).
Proof.
  intros Hr Hme Hboot.
  unfold initAsync, loopInBackground, syncLoopAsync, whoamiAsync, syncOnceAsync, apiAsync.
  unfold modify, get, ret, mbind, M_bind, bind.
  destruct (onHumanMessage cfg), (onError cfg), (onExit cfg); simpl.
  all: unfold now in *; simpl; rewrite Hme; simpl.
  all: rewrite length_app; simpl.
  all: replace (length (trace st) + 1) with (S (length (trace st))) by lia.
  all: change (sinceParam None) with (@None string); rewrite Hboot; simpl; rewrite Hr.
  all: match goal with
       | |- context [whileRunning _ _ ?s] => exists s
       end.
  all: destruct (whileRunning net fuel _) as [end_ st_end] eqn:Hloop; simpl.
  all: split_and!; try done; try (by rewrite <-(assoc_L (++))).
  all: intros ? ? Hfuel [= <- <-]; destruct fuel as [|fuel]; [done|].
  all: by apply whileRunning_first_poll in Hloop.
Qed.

Lemma bootstrap_adopts_cursor_witness :
  let backlog := [Demo.text "e0" Demo.human "missed"; Demo.text "e1" Demo.human "exit"] in
  let st0 := (initAsync (Demo.steady (Demo.response "s1" ["!a"] backlog)) 0 Demo.cfg
                initialState).2 in
  trace st0 = [ReqWhoami; ReqSync None 0] ∧ since st0 = Some "s1" ∧ seen st0 = [].
Proof.
  intros backlog st0.
  destruct (bootstrap_adopts_cursor
              (Demo.steady (Demo.response "s1" ["!a"] backlog)) Demo.cfg initialState
              Demo.bot (Demo.response "s1" ["!a"] backlog) 0)
    as (st1 & Hinit & Htrace & Hsince & Hseen & Hrun & _); [reflexivity..|].
  assert (st0 = st1) as ->.
  { unfold st0. rewrite Hinit. simpl. by rewrite Hrun. }
  by rewrite Htrace, Hsince, Hseen.
Defined.

(** C3 as stated fails when the registered exit callback throws: the exit
    command of the human is handled, the callback is invoked, and the
    session is still running afterwards. *)
Lemma exit_command_with_throwing_callback :
  let evs := [Demo.text "e2" Demo.human "EXIT"] in
  running Demo.readyThrowingExit = true ∧
  (processEventsAsync evs Demo.readyThrowingExit).1
    = Throw (ThrownError {| message := "onExit failed" |}) ∧
  trace (processEventsAsync evs Demo.readyThrowingExit).2 = [CallExit] ∧
  running (processEventsAsync evs Demo.readyThrowingExit).2 = true.
Proof. by split_and!. Qed.

(** C3, amended (exit short-circuit).  Let a batch reach, without an
    earlier exit or exception, a new exit command of the human (whose
    identifier is not empty and is not the bot's own).  Then, whatever the
    exit callback does and whatever follows in the batch, the batch ends
    there: from that event on the exit callback, if registered, is the
    only callback invoked (the message callback is not), the identifier of
    the exit command is the last one recorded, and nothing of the rest of
    the batch is looked at.  When the exit callback returns normally, or
    none is registered, the session is stopped and the loop returns. *)
Theorem exit_short_circuits
    (net : Network) (st st_c : State) (cfg : MatrixClientConfig)
    (pre : list MatrixEvent) (ev : MatrixEvent) (id : string) :
  config st = Some cfg → truthy (botUserId st) = true →
  humanUserId cfg ≠ "" → botUserId st ≠ Some (humanUserId cfg) →
  forEvents pre st = (Ok Continue, st_c) →
  asTruthy (event_id ev) = Some id → id ∉ seen st_c → exitCommand cfg ev →
  ∃ r st',
    (∀ post, processEventsAsync (pre ++ ev :: post) st = (r, st')) ∧
    trace st' = trace st_c ++ (if exitCallback st is Some _ then [CallExit] else []) ∧
    seen st' = recordSeen id (seen st_c) ∧
    ((∀ cb, exitCallback st = Some cb → cb (now st_c) = Returns) →
     r = Ok tt ∧ running st' = false ∧
     ∀ fuel, whileRunning net fuel st' = (LoopReturned, st')).
Proof.
  intros Hcfg Hbot Hhuman Hnotbot Hpre Hid Hnew Hexit.
  pose proof Hpre as ((Hs1 & _ & _ & Hs4 & Hs5) & _)%forEvents_effect.
  set (st1 := set_seen (recordSeen id (seen st_c)) st_c).
  assert (∀ post, processEventsAsync (pre ++ ev :: post) st =
            match exitCallback st with
            | None => (Ok tt, set_running false st1)
            | Some cb =>
                match cb (now st_c) with
                | Returns => (Ok tt, set_running false (log CallExit st1))
                | Throws v => (Throw v, log CallExit st1)
                end
            end) as Hrun.
  { intros post. unfold processEventsAsync, get, ret, mbind, M_bind, bind.
    rewrite Hcfg, Hbot, bool_decide_eq_false_2 by done. simpl.
    rewrite (forEvents_app pre _ st st_c Hpre). simpl.
    unfold mbind, M_bind, bind.
    rewrite (exit_pass st_c cfg ev id) by (done || congruence).
    cbv zeta. rewrite Hs4. fold st1.
    destruct (exitCallback st) as [cb|]; [|done]. by destruct (cb (now st_c)). }
  destruct (exitCallback st) as [cb|] eqn:Hecb.
  - destruct (cb (now st_c)) as [|v] eqn:Hcb.
    + exists (Ok tt), (set_running false (log CallExit st1)).
      split_and!; try done. intros _. split_and!; try done.
      intros fuel. by apply whileRunning_stopped.
    + exists (Throw v), (log CallExit st1). split_and!; try done.
      intros Hret. specialize (Hret cb eq_refl). congruence.
  - exists (Ok tt), (set_running false st1). split_and!; try done.
    + simpl. by rewrite app_nil_r.
    + intros _. split_and!; try done. intros fuel. by apply whileRunning_stopped.
Qed.

Lemma exit_short_circuits_witness :
  let pre := [Demo.text "e1" Demo.human "hi"] in
  let bye := Demo.text "e2" Demo.human "EXIT" in
  let post := [Demo.text "e3" Demo.human "too late"] in
  ∃ st', processEventsAsync (pre ++ bye :: post) Demo.ready = (Ok tt, st') ∧
    trace st' = [CallMessage "e1" "hi" Demo.human; CallExit] ∧
    seen st' = ["e1"; "e2"] ∧ running st' = false.
Proof.
  intros pre bye post.
  destruct (exit_short_circuits (Demo.steady (Demo.response "T2" [] [])) Demo.ready
              (forEvents pre Demo.ready).2 Demo.cfg pre bye "e2")
    as (r & st' & Hrun & Htrace & Hseen & Hstop).
  - reflexivity.
  - reflexivity.
  - done.
  - done.
  - reflexivity.
  - reflexivity.
  - by vm_compute; intros [|[]%elem_of_nil]%elem_of_cons.
  - split_and!; [done..|]. by exists "EXIT".
  - destruct Hstop as (-> & Hr & _); [by intros cb [= <-]|].
    exists st'. split_and!; [apply Hrun|by rewrite Htrace|by rewrite Hseen|done].
Defined.

(** C10 as stated fails when the error callback throws as well: the
    exception of the exit callback is handed to it, its own exception leaves
    the [catch] block, and the loop ends rejected after a single poll and
    without back-off, instead of polling on. *)
Lemma exit_and_error_callbacks_throwing :
  let net := Demo.steady (Demo.response "T2" [] [Demo.text "e2" Demo.human "exit"]) in
  (whileRunning net 5 Demo.readyThrowingBoth).1
    = LoopRejected (ThrownError {| message := "onError failed" |}) ∧
  trace (whileRunning net 5 Demo.readyThrowingBoth).2
    = [ReqSync (Some "T1") 30000; CallExit; CallError {| message := "onExit failed" |}] ∧
  running (whileRunning net 5 Demo.readyThrowingBoth).2 = true.
Proof. by split_and!. Qed.

(** C10, amended (a throwing exit callback defeats in-band shutdown).  Let
    an iteration of the running loop reach a new exit command of the human,
    and let the registered exit callback throw [v].  The exception leaves
    the [try] block with the running flag still set; the [catch] block hands
    it to the error callback, if one is registered, and leaves the flag set
    whatever that callback does.  Provided the error callback returns (or
    there is none), the loop backs off for 2 seconds and goes on: it is
    still running, and with fuel left its next action is a poll. *)
Theorem throwing_exit_callback_defeats_shutdown
    (net : Network) (st st_b st_c : State) (cfg : MatrixClientConfig)
    (pre post : list MatrixEvent) (ev : MatrixEvent) (id : string)
    (cb : ExitCallback) (v : Thrown) :
  config st = Some cfg → running st = true → truthy (botUserId st) = true →
  humanUserId cfg ≠ "" → botUserId st ≠ Some (humanUserId cfg) →
  pollAndJoin net st = (Ok (pre ++ ev :: post), st_b) →
  forEvents pre st_b = (Ok Continue, st_c) →
  asTruthy (event_id ev) = Some id → id ∉ seen st_c → exitCommand cfg ev →
  exitCallback st = Some cb → cb (now st_c) = Throws v →
  ∃ st1,
    tryBlock net st = (Throw v, st1) ∧
    trace st1 = trace st_c ++ [CallExit] ∧
    running st1 = true ∧
    (∀ r st2, catchBlock v st1 = (r, st2) →
       running st2 = true ∧ ∃ tr, trace st2 = trace st1 ++ reported v st ++ tr) ∧
    ((∀ ecb, errorCallback st = Some ecb → ecb (toError v) (now st1) = Returns) →
     ∃ st2,
       (∀ fuel, whileRunning net (S fuel) st = whileRunning net fuel st2) ∧
       trace st2 = trace st1 ++ reported v st ++ [Sleep 2000] ∧
       running st2 = true ∧
       ∀ fuel e st', whileRunning net (S (S fuel)) st = (e, st') →
         ∃ tr, trace st' = trace st2 ++ ReqSync (sinceParam (since st2)) 30000 :: tr).
Proof.
  intros Hcfg Hr Hbot Hhuman Hnotbot Hpoll Hpre Hid Hnew Hexit Hcb Hthrow.
  pose proof Hpoll as ((Hb1 & _ & Hb3 & Hb4 & Hb5) & _ & Hrb & _)%pollAndJoin_effect;
    [|done].
  pose proof Hpre as ((Hc1 & _ & Hc3 & Hc4 & Hc5) & _ & _ & Hrc)%forEvents_effect.
  simpl in Hrc.
  set (st1 := log CallExit (set_seen (recordSeen id (seen st_c)) st_c)).
  assert (tryBlock net st = (Throw v, st1)) as Htry.
  { unfold tryBlock, mbind, M_bind, bind. rewrite Hpoll.
    unfold processEventsAsync, get, ret, mbind, M_bind, bind.
    rewrite Hb1, Hcfg, Hb5, Hbot, bool_decide_eq_false_2 by done. simpl.
    rewrite (forEvents_app pre _ st_b st_c Hpre). simpl.
    unfold mbind, M_bind, bind.
    rewrite (exit_pass st_c cfg ev id) by (done || congruence).
    cbv zeta. rewrite Hc4, Hb4, Hcb, Hthrow. done. }
  assert (running st1 = true) as Hr1 by (simpl; congruence).
  exists st1. split_and!; try done.
  - intros r st2 (_ & _ & _ & Hr2 & tr & Ht & _)%catchBlock_effect.
    split; [congruence|]. exists tr. rewrite Ht. unfold reported.
    simpl. by rewrite Hc3, Hb3.
  - intros Hecb.
    destruct (caught_continues net st v st1) as (st2 & Hstep & Ht & Hr2 & Hc & _ & Hnext);
      [done..|].
    exists st2. split_and!; try done. by rewrite Hc.
Qed.

Lemma throwing_exit_callback_defeats_shutdown_witness :
  let hi := Demo.text "e1" Demo.human "hi" in
  let bye := Demo.text "e2" Demo.human "exit" in
  let net := Demo.steady (Demo.response "T2" [] [hi; bye]) in
  ∃ st2, whileRunning net 1 Demo.readyThrowingExit = (LoopPending, st2) ∧
    running st2 = true ∧
    trace st2 = [ReqSync (Some "T1") 30000; CallMessage "e1" "hi" Demo.human;
                 CallExit; CallError {| message := "onExit failed" |}; Sleep 2000].
Proof.
  intros hi bye net.
  destruct (throwing_exit_callback_defeats_shutdown net Demo.readyThrowingExit
              (pollAndJoin net Demo.readyThrowingExit).2
              (forEvents [hi] (pollAndJoin net Demo.readyThrowingExit).2).2
              Demo.cfg [hi] [] bye "e2"
              (λ _, Throws (ThrownError {| message := "onExit failed" |}))
              (ThrownError {| message := "onExit failed" |}))
    as (st1 & _ & Ht1 & _ & _ & Hgo).
  - reflexivity.
  - reflexivity.
  - reflexivity.
  - done.
  - done.
  - reflexivity.
  - reflexivity.
  - reflexivity.
  - by vm_compute; intros [|[]%elem_of_nil]%elem_of_cons.
  - split_and!; [done..|]. by exists "exit".
  - reflexivity.
  - reflexivity.
  - destruct Hgo as (st2 & Hstep & Ht2 & Hr2 & _).
    { by intros ecb [= <-]. }
    exists st2. split_and!; [|done|by rewrite Ht2, Ht1].
    rewrite Hstep. simpl. by rewrite Hr2.
Defined.

(** C1 as stated fails on the cursor.  The poll succeeds and returns
    "T2", the join that follows fails: the error is caught and reported,
    and the next poll is made with "T2", not with the cursor "T1" the loop
    held before the iteration that failed. *)
Lemma poll_after_failure_uses_new_cursor :
  since Demo.ready = Some "T1" ∧
  trace (whileRunning Demo.refusing 2 Demo.ready).2 =
    [ReqSync (Some "T1") 30000; ReqJoin "!a";
     CallError {| message := "HTTP 403 Forbidden" |}; Sleep 2000;
     ReqSync (Some "T2") 30000; ReqJoin "!a";
     CallError {| message := "HTTP 403 Forbidden" |}; Sleep 2000].
Proof. by split. Qed.

(** C1, amended (errors stay in the loop).  Let the [try] block of an
    iteration of the running loop end in an exception [v], wherever it was
    raised, and let the error callback, if registered, return normally when
    handed the error.  Then the iteration ends normally: the exception does
    not leave the loop, the error callback has been called with it, a
    2-second back-off follows, and the session is still running.  The
    cursor is the one the iteration started with if the poll itself failed
    or carried no [next_batch], and the [next_batch] of the reply otherwise;
    with fuel left, the next action of the loop is a poll with that cursor. *)
Theorem errors_stay_in_loop
    (net : Network) (st st1 : State) (cfg : MatrixClientConfig) (v : Thrown) :
  config st = Some cfg → running st = true →
  tryBlock net st = (Throw v, st1) →
  (∀ ecb, errorCallback st = Some ecb → ecb (toError v) (now st1) = Returns) →
  ∃ st2,
    whileRunning net 1 st = (LoopPending, st2) ∧
    (∀ fuel, whileRunning net (S fuel) st = whileRunning net fuel st2) ∧
    trace st2 = trace st1 ++ reported v st ++ [Sleep 2000] ∧
    running st2 = true ∧
    since st2 =
      match net_sync net (now st) (sinceParam (since st)) 30000 with
      | Ok s => if truthy (next_batch s) then next_batch s else since st
      | Throw _ => since st
      end ∧
    ∀ fuel e st', whileRunning net (S (S fuel)) st = (e, st') →
      ∃ tr, trace st' = trace st2 ++ ReqSync (sinceParam (since st2)) 30000 :: tr.
Proof.
  intros Hcfg Hr Htry Hecb.
  pose proof Htry as (_ & Hc & _)%tryBlock_effect; [|done].
  destruct (caught_continues net st v st1) as (st2 & Hstep & Ht & Hr2 & Hc2 & _ & Hnext);
    [done..|].
  exists st2. split_and!; try done.
  - rewrite Hstep. simpl. by rewrite Hr2.
  - by rewrite Hc2, Hc.
  - by rewrite Hc2.
Qed.

Lemma errors_stay_in_loop_witness :
  ∃ st2, whileRunning Demo.refusing 1 Demo.ready = (LoopPending, st2) ∧
    running st2 = true ∧ since st2 = Some "T2" ∧
    trace st2 = [ReqSync (Some "T1") 30000; ReqJoin "!a";
                 CallError {| message := "HTTP 403 Forbidden" |}; Sleep 2000].
Proof.
  destruct (errors_stay_in_loop Demo.refusing Demo.ready
              (tryBlock Demo.refusing Demo.ready).2 Demo.cfg
              (ThrownError {| message := "HTTP 403 Forbidden" |}))
    as (st2 & Hone & _ & Ht & Hr & Hc & _).
  - reflexivity.
  - reflexivity.
  - reflexivity.
  - by intros ecb [= <-].
  - exists st2. split_and!; [done..|]. by rewrite Ht.
Defined.

(** An error callback that throws is not covered by the statement above:
    its exception leaves the [catch] block and ends the loop. *)
Lemma throwing_error_callback_ends_loop net st v st1 ecb v' fuel :
  running st = true →
  tryBlock net st = (Throw v, st1) →
  errorCallback st1 = Some ecb → ecb (toError v) (now st1) = Throws v' →
  whileRunning net (S fuel) st = (LoopRejected v', log (CallError (toError v)) st1).
Proof.
  intros Hr Htry Hecb Hthrow. simpl. rewrite Hr. unfold try_catch. rewrite Htry.
  unfold catchBlock, get, await_call, mbind, M_bind, bind.
  by rewrite Hecb, Hthrow.
Qed.

(** C4 as stated fails: when the join of the first invited room is
    refused, the second invited room is not joined and the message that came
    with the same response is not dispatched (nor recorded as seen); the
    cursor has moved on all the same. *)
Lemma join_failure_aborts_iteration :
  trace (whileRunning Demo.refusing 1 Demo.ready).2 =
    [ReqSync (Some "T1") 30000; ReqJoin "!a";
     CallError {| message := "HTTP 403 Forbidden" |}; Sleep 2000] ∧
  seen (whileRunning Demo.refusing 1 Demo.ready).2 = [] ∧
  since (whileRunning Demo.refusing 1 Demo.ready).2 = Some "T2".
Proof. by split_and!. Qed.

(** C4, amended (a failing join).  Let the poll of an iteration of the
    running loop return invitations of which the one to [rid] is the first
    whose join fails, with [v].  Then the failure ends the iteration: the
    [try] block is left with [v] when the rooms invited before [rid] have
    been joined, those after it are not tried and no event of the response
    is processed (no callback is invoked, the dedup window is as it was),
    with the cursor of the response already adopted; what the loop does
    next is to hand the failure to the error callback, if one is registered,
    and then, unless that callback throws, to back off.  Provided the error
    callback returns normally (or none is registered), the failure does not
    end the loop: after the 2-second back-off it is still running, with the
    window and the adopted cursor unchanged, and with fuel left its next
    action is a poll with that cursor. *)
Theorem join_failure_ends_iteration
    (net : Network) (st : State) (cfg : MatrixClientConfig) (s : SyncResponse)
    (before after : list string) (rid : string) (v : Thrown) :
  config st = Some cfg → running st = true →
  net_sync net (now st) (sinceParam (since st)) 30000 = Ok s →
  default [] (rooms s ≫= invite) = before ++ rid :: after →
  (∀ j r, before !! j = Some r → net_join net (S (now st) + j) r = Ok tt) →
  net_join net (S (now st) + length before) rid = Throw v →
  ∃ st1,
    tryBlock net st = (Throw v, st1) ∧
    trace st1 = trace st ++ [ReqSync (sinceParam (since st)) 30000]
                  ++ (ReqJoin <$> before) ++ [ReqJoin rid] ∧
    seen st1 = seen st ∧
    running st1 = true ∧
    since st1 = (if truthy (next_batch s) then next_batch s else since st) ∧
    (∀ fuel e st', whileRunning net (S fuel) st = (e, st') →
       ∃ tr, trace st' = trace st1 ++ reported v st ++ tr ∧
         ((tr = [] ∧ ∃ v', e = LoopRejected v') ∨ ∃ tr', tr = Sleep 2000 :: tr')) ∧
    ((∀ ecb, errorCallback st = Some ecb →
        ecb (toError v) (S (S (now st + length before))) = Returns) →
     ∃ st2,
       (∀ fuel, whileRunning net (S fuel) st = whileRunning net fuel st2) ∧
       trace st2 = trace st1 ++ reported v st ++ [Sleep 2000] ∧
       seen st2 = seen st ∧
       running st2 = true ∧
       since st2 = (if truthy (next_batch s) then next_batch s else since st) ∧
       ∀ fuel e st', whileRunning net (S (S fuel)) st = (e, st') →
         ∃ tr, trace st' = trace st2 ++
           ReqSync (sinceParam (if truthy (next_batch s) then next_batch s else since st))
             30000 :: tr).
Proof.
  intros Hcfg Hr Hsync Hinv Hok Hfail.
  set (st_a := if truthy (next_batch s)
               then set_since (next_batch s) (log (ReqSync (sinceParam (since st)) 30000) st)
               else log (ReqSync (sinceParam (since st)) 30000) st).
  assert (config st_a = Some cfg ∧ now st_a = S (now st) ∧ seen st_a = seen st ∧
          running st_a = running st ∧ errorCallback st_a = errorCallback st ∧
          trace st_a = trace st ++ [ReqSync (sinceParam (since st)) 30000] ∧
          since st_a = (if truthy (next_batch s) then next_batch s else since st))
    as (Ha1 & Ha2 & Ha3 & Ha4 & Ha5 & Ha6 & Ha7).
  { unfold st_a. destruct (truthy (next_batch s)); split_and!; try done; apply now_log. }
  destruct (joinInvited_fails net before rid after st_a v)
    as (st1 & Hjoin & (Hj1 & _ & Hj3 & _) & Hj4 & Hj5 & Hj6 & Hj7).
  { by rewrite Ha1. }
  { by rewrite Ha2. }
  { by rewrite Ha2. }
  assert (tryBlock net st = (Throw v, st1)) as Htry.
  { unfold tryBlock, pollAndJoin, syncOnceAsync, apiAsync.
    unfold modify, get, ret, mbind, M_bind, bind. unfold mbind in Hinv.
    rewrite Hcfg, Hsync, Hinv. fold st_a.
    destruct (truthy (next_batch s)); fold st_a; by rewrite Hjoin. }
  assert (now st1 = S (S (now st + length before))) as Hnow.
  { unfold now in *. rewrite Hj7, !length_app, length_fmap, Ha2. simpl. lia. }
  assert (reported v st1 = reported v st) as Hrep.
  { unfold reported. by rewrite Hj3, Ha5. }
  assert (is_Some (config st1)) as Hcfg1 by (rewrite Hj1, Ha1; done).
  exists st1. split_and!; try done.
  - rewrite Hj7, Ha6. by rewrite <-!(assoc_L (++)).
  - congruence.
  - congruence.
  - congruence.
  - intros fuel e st'. rewrite whileRunning_S by done. unfold try_catch. rewrite Htry.
    destruct (catchBlock v st1) as [r2 st2] eqn:Hcatch.
    pose proof Hcatch as ((Hs1 & _) & _)%catchBlock_effect.
    apply catchBlock_cases in Hcatch as [[-> Ht']|(ecb & v' & Hecb & Hthrow & -> & ->)].
    + intros (_ & tr' & Ht'')%whileRunning_trace; [|by rewrite Hs1].
      exists (Sleep 2000 :: tr'). split; [|right; by exists tr'].
      rewrite Ht'', Ht', Hrep, <-!(assoc_L (++)). done.
    + intros [= <- <-]. exists []. split; [|left; split; [done|by exists v']].
      rewrite app_nil_r, <-Hrep. unfold reported. by rewrite Hecb.
  - intros Hecb.
    destruct (caught_continues net st v st1)
      as (st2 & Hstep & Ht & Hr2 & Hc2 & Hseen2 & Hnext);
      [done|done|done|by rewrite Hnow|].
    exists st2. split_and!; try done.
    + congruence.
    + congruence.
    + intros fuel e st' Hloop. destruct (Hnext fuel e st' Hloop) as [tr Htr].
      exists tr. rewrite Htr. do 3 f_equal. congruence.
Qed.

Lemma join_failure_ends_iteration_witness :
  ∃ st2, whileRunning Demo.refusing 1 Demo.ready = whileRunning Demo.refusing 0 st2 ∧
    trace st2 = [ReqSync (Some "T1") 30000; ReqJoin "!a";
                 CallError {| message := "HTTP 403 Forbidden" |}; Sleep 2000] ∧
    seen st2 = [] ∧ running st2 = true ∧ since st2 = Some "T2".
Proof.
  destruct (join_failure_ends_iteration Demo.refusing Demo.ready Demo.cfg
              (Demo.response "T2" ["!a"; "!b"] [Demo.text "e1" Demo.human "hi"])
              [] ["!b"] "!a" (ThrownError {| message := "HTTP 403 Forbidden" |}))
    as (st1 & _ & Ht1 & _ & _ & _ & _ & Hgo).
  - reflexivity.
  - reflexivity.
  - reflexivity.
  - reflexivity.
  - by intros j r [=].
  - reflexivity.
  - destruct Hgo as (st2 & Hstep & Ht & Hseen & Hr & Hc & _); [by intros ecb [= <-]|].
    exists st2.
    split_and!; [apply Hstep|by rewrite Ht, Ht1|by rewrite Hseen|done|by rewrite Hc].
Defined.

(** C6 (cursor adoption).  Let the poll of an iteration return a
    non-empty [next_batch] "T2".  Then the cursor is "T2" in the state in
    which the joins have been made and the processing of the events starts
    (or in which a failed join has ended the [try] block), and it is "T2"
    when the [try] block ends, however it ends: with or without an
    exception, whichever step raised it.  Of the polls of the running loop
    from here on the first is the one just made and the second, if the loop
    comes to it, is made with "T2".  And the loop does come to it: with fuel
    for a second iteration the poll with "T2" is made, with no other poll
    in between, unless the loop has ended, which it does in two cases only:
    the [try] block has ended normally with the running flag cleared (it
    has handled an exit command), or the exception that left the [try]
    block was handed to an error callback that threw. *)
Theorem cursor_adopted_before_processing
    (net : Network) (st : State) (cfg : MatrixClientConfig)
    (s : SyncResponse) (t2 : string) :
  config st = Some cfg →
  net_sync net (now st) (sinceParam (since st)) 30000 = Ok s →
  next_batch s = Some t2 → t2 ≠ "" →
  (∀ r st_b, pollAndJoin net st = (r, st_b) → since st_b = Some t2)
  ∧ (∀ r st1, tryBlock net st = (r, st1) → since st1 = Some t2)
  ∧ (∀ fuel e st', running st = true → whileRunning net (S fuel) st = (e, st') →
       ∃ tr, trace st' = trace st ++ tr ∧
         polls tr !! 0 = Some (sinceParam (since st)) ∧
         ∀ c, polls tr !! 1 = Some c → c = Some t2)
  ∧ (∀ fuel e st', running st = true → whileRunning net (S (S fuel)) st = (e, st') →
       (∃ tr1 tr2,
           trace st' = trace st ++ ReqSync (sinceParam (since st)) 30000 :: tr1
                         ++ ReqSync (Some t2) 30000 :: tr2 ∧
           polls tr1 = [])
       ∨ (e = LoopReturned ∧ running st' = false ∧ tryBlock net st = (Ok tt, st'))
       ∨ (∃ v v' st1 ecb, tryBlock net st = (Throw v, st1) ∧
            errorCallback st = Some ecb ∧ ecb (toError v) (now st1) = Throws v' ∧
            e = LoopRejected v')).
Proof.
  intros Hcfg Hsync Hnext Ht2.
  assert (cursorAfterPoll net st = Some t2) as Hcursor.
  { unfold cursorAfterPoll. rewrite Hsync, Hnext. simpl.
    by rewrite bool_decide_eq_true_2. }
  assert (sinceParam (Some t2) = Some t2) as Hparam by by apply asTruthy_Some.
  split_and!.
  - intros r st_b (_ & _ & _ & Hc & _)%pollAndJoin_effect; [congruence|done].
  - intros r st1 (_ & Hc & _)%tryBlock_effect; [congruence|done].
  - intros fuel e st' Hr Hloop.
    apply whileRunning_polls in Hloop as (tr & Ht & Hp0 & Hp1); [|done..].
    exists tr. split_and!; try done. intros c Hc. rewrite (Hp1 c Hc). congruence.
  - intros fuel e st' Hr Hloop.
    apply whileRunning_next_poll in Hloop as [Hpoll|Hend]; [|by right|done..].
    left. by rewrite Hcursor, Hparam in Hpoll.
Qed.

Lemma cursor_adopted_before_processing_witness :
  since (tryBlock Demo.refusing Demo.ready).2 = Some "T2" ∧
  (∃ tr, trace (whileRunning Demo.refusing 2 Demo.ready).2 = trace Demo.ready ++ tr ∧
    polls tr !! 0 = Some (sinceParam (since Demo.ready)) ∧
    ∀ c, polls tr !! 1 = Some c → c = Some "T2") ∧
  polls (trace (whileRunning Demo.refusing 2 Demo.ready).2) = [Some "T1"; Some "T2"].
Proof.
  destruct (cursor_adopted_before_processing Demo.refusing Demo.ready Demo.cfg
              (Demo.response "T2" ["!a"; "!b"] [Demo.text "e1" Demo.human "hi"]) "T2")
    as (_ & Htry & Hloop & _); [reflexivity|reflexivity|reflexivity|done|].
  split_and!.
  - apply (Htry (tryBlock Demo.refusing Demo.ready).1). apply surjective_pairing.
  - apply (Hloop 1 (whileRunning Demo.refusing 2 Demo.ready).1); [reflexivity|].
    apply surjective_pairing.
  - reflexivity.
Defined.

(** * Further properties of the module *)

(** ** Initialisation *)

Section Init.

Variable net : Network.

(** [initAsync] in one piece. *)
Lemma initAsync_unfold fuel cfg st :
  initAsync net fuel cfg st =
  let st1 := log ReqWhoami (registerConfig cfg st) in
  match net_whoami net (now st) with
  | Throw v => (Throw v, st1)
  | Ok me =>
    let st2 := log (ReqSync None 0) (set_botUserId (Some me) st1) in
    match net_sync net (S (now st)) None 0 with
    | Throw v => (Throw v, st2)
    | Ok boot =>
      let st3 := set_since (next_batch boot) st2 in
      if running st then (Ok None, st3)
      else (Ok (Some (whileRunning net fuel (set_running true st3)).1),
            (whileRunning net fuel (set_running true st3)).2)
    end
  end.
Proof.
  unfold initAsync, loopInBackground, syncLoopAsync, whoamiAsync, syncOnceAsync, apiAsync.
  unfold registerConfig, modify, get, ret, mbind, M_bind, bind, now.
  destruct st as [c0 s0 mcb ecb xcb b0 r0 w0 t0]; simpl.
  destruct (onHumanMessage cfg), (onError cfg), (onExit cfg); simpl.
  all: destruct (net_whoami net (length t0)) as [me|v]; [|reflexivity]; simpl.
  all: rewrite length_app; simpl.
  all: replace (length t0 + 1) with (S (length t0)) by lia.
  all: change (sinceParam None) with (@None string).
  all: destruct (net_sync net (S (length t0)) None 0) as [boot|v]; [|reflexivity]; simpl.
  all: destruct r0; [reflexivity|].
  all: unfold set_exitCallback, set_errorCallback, set_messageCallback, set_config; simpl.
  all: match goal with
       | |- context [whileRunning _ _ ?s] => by destruct (whileRunning net fuel s)
       end.
Qed.

(** The loop leaves the configuration, the callbacks and the bot identity
    alone. *)
Lemma whileRunning_setup fuel st e st' :
  is_Some (config st) → whileRunning net fuel st = (e, st') → same_setup st st'.
Proof.
  revert st. induction fuel as [|fuel IH]; intros st Hcfg; simpl.
  - by destruct (running st); intros [= <- <-].
  - destruct (running st); [|by intros [= <- <-]]. unfold try_catch.
    destruct (tryBlock net st) as [[[]|v] st1] eqn:Htry;
      apply tryBlock_effect in Htry as (Hs & _); try done.
    all: assert (is_Some (config st1)) as Hcfg1 by (destruct Hs as [-> _]; done).
    + intros Hloop%IH; [by etrans|done].
    + destruct (catchBlock v st1) as [[[]|v'] st2] eqn:Hcatch;
        apply catchBlock_effect in Hcatch as (Hs' & _).
      * assert (is_Some (config st2)) as Hcfg2 by (destruct Hs' as [-> _]; done).
        intros Hloop%IH; [|done]. by do 2 (etrans; [eassumption|]).
      * intros [= <- <-]. by etrans.
Qed.

Lemma window_ok_same_seen st st' : seen st' = seen st → window_ok st → window_ok st'.
Proof. unfold window_ok. by intros ->. Qed.

End Init.

(** X1 (the window stays bounded over a whole session).  However the
    server answers and whatever the callbacks do, a session initialised
    from a state with a well-formed dedup window ends, as far as it is
    followed, in a state whose window is still a set of at most [MAX_SEEN]
    identifiers. *)
Theorem session_window_bounded
    (net : Network) (fuel : nat) (cfg : MatrixClientConfig) (st st' : State)
    (r : Result (option LoopEnd)) :
  window_ok st →
  initAsync net fuel cfg st = (r, st') →
  NoDup (seen st') ∧ length (seen st') ≤ MAX_SEEN.
Proof.
  intros Hok. rewrite initAsync_unfold. cbv zeta.
  destruct (net_whoami net (now st)) as [me|v].
  2:{ intros [= <- <-]. by apply (window_ok_same_seen st). }
  destruct (net_sync net (S (now st)) None 0) as [boot|v].
  2:{ intros [= <- <-]. by apply (window_ok_same_seen st). }
  destruct (running st).
  { intros [= <- <-]. by apply (window_ok_same_seen st). }
  intros [= <- <-].
  match goal with
  | |- context [whileRunning _ _ ?s] =>
      destruct (whileRunning net fuel s) as [e st2] eqn:Hloop
  end.
  apply whileRunning_window in Hloop; [done|by eexists|].
  by apply (window_ok_same_seen st).
Qed.

Lemma session_window_bounded_witness :
  let net := Demo.steady (Demo.response "s1" [] [Demo.text "e1" Demo.human "hi"]) in
  NoDup (seen (initAsync net 3 Demo.cfg initialState).2) ∧
  length (seen (initAsync net 3 Demo.cfg initialState).2) ≤ MAX_SEEN.
Proof.
  intros net.
  apply (session_window_bounded net 3 Demo.cfg initialState _
           (initAsync net 3 Demo.cfg initialState).1).
  - apply window_ok_initial.
  - apply surjective_pairing.
Defined.

(** X2 (only bootstrap failures reach the caller).  [initAsync] throws
    exactly when the identity lookup fails or, after it, the bootstrap poll
    fails, and it throws that error.  In that case the loop has not been
    started: the running flag and the cursor are as they were, the window is
    untouched, no callback has been invoked, and the configuration is
    already stored.  Nothing that happens in the loop makes [initAsync]
    throw. *)
Theorem init_throws_only_on_bootstrap_failure
    (net : Network) (fuel : nat) (cfg : MatrixClientConfig) (st st' : State)
    (r : Result (option LoopEnd)) :
  initAsync net fuel cfg st = (r, st') →
  (∀ v, r = Throw v ↔
        net_whoami net (now st) = Throw v ∨
        (∃ me, net_whoami net (now st) = Ok me) ∧
        net_sync net (S (now st)) None 0 = Throw v)
  ∧ (∀ v, r = Throw v →
       running st' = running st ∧ since st' = since st ∧ seen st' = seen st ∧
       config st' = Some cfg ∧
       ∃ tr, trace st' = trace st ++ tr ∧ (tr = [ReqWhoami] ∨ tr = [ReqWhoami; ReqSync None 0])).
Proof.
  rewrite initAsync_unfold. cbv zeta.
  destruct (net_whoami net (now st)) as [me|v0].
  2:{ intros [= <- <-]. split.
      - intros v. split; [intros [= ->]; by left|].
        intros [[= ->]|[[me [=]] _]]. done.
      - intros v _. split_and!; try done. exists [ReqWhoami]. by split; [|left]. }
  destruct (net_sync net (S (now st)) None 0) as [boot|v0].
  2:{ intros [= <- <-]. split.
      - intros v. split; [intros [= ->]; right; eauto|].
        intros [[=]|[_ [= ->]]]. done.
      - intros v _. split_and!; try done. exists [ReqWhoami; ReqSync None 0].
        split; [|by right]. simpl. by rewrite <-(assoc_L (++)). }
  intros Hrun. assert (∃ o, r = Ok o) as [o ->].
  { destruct (running st); injection Hrun as <- <-; eauto. }
  split.
  - intros v. split; [done|]. by intros [[=]|[_ [=]]].
  - by intros v [=].
Qed.

Lemma init_throws_only_on_bootstrap_failure_witness :
  (initAsync Demo.unauthorized 3 Demo.cfg initialState).1
    = Throw (ThrownError {| message := "HTTP 401 Unauthorized" |}) ∧
  running (initAsync Demo.unauthorized 3 Demo.cfg initialState).2 = false.
Proof.
  destruct (init_throws_only_on_bootstrap_failure Demo.unauthorized 3 Demo.cfg initialState
              (initAsync Demo.unauthorized 3 Demo.cfg initialState).2
              (initAsync Demo.unauthorized 3 Demo.cfg initialState).1)
    as [Hiff Hfail]; [apply surjective_pairing|].
  assert ((initAsync Demo.unauthorized 3 Demo.cfg initialState).1
            = Throw (ThrownError {| message := "HTTP 401 Unauthorized" |})) as Hr.
  { apply Hiff. by left. }
  split; [done|]. by destruct (Hfail _ Hr) as (-> & _).
Defined.

(** X3 (initialising a running session).  When [initAsync] is called while
    the session is running and both bootstrap requests succeed, no second
    loop is started, whatever fuel there is; but the identity lookup and the
    bootstrap poll are made again, and the cursor of the running loop is
    replaced by the [next_batch] of that poll, the bot identity by the
    identity just resolved. *)
Theorem init_while_running
    (net : Network) (fuel : nat) (cfg : MatrixClientConfig) (st : State)
    (me : string) (boot : SyncResponse) :
  running st = true →
  net_whoami net (now st) = Ok me →
  net_sync net (S (now st)) None 0 = Ok boot →
  ∃ st',
    initAsync net fuel cfg st = (Ok None, st') ∧
    trace st' = trace st ++ [ReqWhoami; ReqSync None 0] ∧
    since st' = next_batch boot ∧ botUserId st' = Some me ∧
    running st' = true ∧ seen st' = seen st.
Proof.
  intros Hr Hme Hboot. rewrite initAsync_unfold, Hme, Hboot, Hr. cbv zeta.
  eexists. split; [done|]. split_and!; try done.
  simpl. by rewrite <-(assoc_L (++)).
Qed.

Lemma init_while_running_witness :
  ∃ st', initAsync (Demo.steady (Demo.response "s9" [] [])) 5 Demo.cfg Demo.ready
           = (Ok None, st') ∧
    trace st' = [ReqWhoami; ReqSync None 0] ∧ since st' = Some "s9".
Proof.
  destruct (init_while_running (Demo.steady (Demo.response "s9" [] [])) 5 Demo.cfg
              Demo.ready Demo.bot (Demo.response "s9" [] []))
    as (st' & Hrun & Ht & Hs & _); [reflexivity..|].
  exists st'. split_and!; [done|by rewrite Ht|by rewrite Hs].
Defined.

(** X4 (callbacks across initialisation).  Whatever becomes of the
    bootstrap requests and of the loop, after [initAsync] each callback slot
    holds the callback of the configuration when the configuration has one,
    and otherwise still the callback registered before the call: a setter
    used before [initAsync] is not undone by a configuration that leaves the
    slot out. *)
Theorem init_registers_callbacks
    (net : Network) (fuel : nat) (cfg : MatrixClientConfig) (st st' : State)
    (r : Result (option LoopEnd)) :
  initAsync net fuel cfg st = (r, st') →
  messageCallback st' =
    (if onHumanMessage cfg is Some cb then Some cb else messageCallback st) ∧
  errorCallback st' = (if onError cfg is Some cb then Some cb else errorCallback st) ∧
  exitCallback st' = (if onExit cfg is Some cb then Some cb else exitCallback st).
Proof.
  rewrite initAsync_unfold. cbv zeta.
  destruct (net_whoami net (now st)) as [me|v]; [|by intros [= <- <-]].
  destruct (net_sync net (S (now st)) None 0) as [boot|v]; [|by intros [= <- <-]].
  destruct (running st); [by intros [= <- <-]|].
  intros [= <- <-].
  match goal with
  | |- context [whileRunning _ _ ?s] =>
      destruct (whileRunning net fuel s) as [e st2] eqn:Hloop
  end.
  simpl. apply whileRunning_setup in Hloop as (_ & -> & -> & -> & _); [done|by eexists].
Qed.

Lemma init_registers_callbacks_witness :
  let cfg := {| homeserver := "https://hs"; botAccessToken := "token";
                roomId := Demo.room; humanUserId := Demo.human;
                onHumanMessage := None; onError := None; onExit := None |} in
  is_Some (exitCallback (initAsync Demo.unauthorized 1 cfg Demo.readyThrowingExit).2).
Proof.
  intros cfg.
  destruct (init_registers_callbacks Demo.unauthorized 1 cfg Demo.readyThrowingExit
              (initAsync Demo.unauthorized 1 cfg Demo.readyThrowingExit).2
              (initAsync Demo.unauthorized 1 cfg Demo.readyThrowingExit).1)
    as (_ & _ & ->); [apply surjective_pairing|]. by eexists.
Defined.

(** ** What is dispatched *)

Section Dispatch.

Implicit Types (st : State) (ev : MatrixEvent) (cfg : MatrixClientConfig).

Lemma verdict_actionable st cfg ev id b s :
  config st = Some cfg → asTruthy (event_id ev) = Some id →
  verdict st ev = Actionable b s → actionable cfg (botUserId st) ev id b s.
Proof.
  intros Hcfg [Hid Hne]%asTruthy_Some. unfold verdict. rewrite Hcfg.
  case_bool_decide as Htype; [done|]. case_bool_decide as Hmsg; [done|].
  destruct (asTruthy (sender ev)) as [s'|] eqn:Hs; [|done].
  destruct (asTruthy (content ev ≫= body)) as [b'|] eqn:Hb; [|done].
  apply asTruthy_Some in Hs as [Hs Hsne]. apply asTruthy_Some in Hb as [Hb Hbne].
  case_bool_decide as Hbot; [done|]. case_bool_decide as Hhuman; [|done].
  case_bool_decide as Hexit; [done|]. intros [= <- <-].
  unfold actionable. by split_and!.
Qed.

Lemma actionable_verdict st cfg ev id b s :
  config st = Some cfg → actionable cfg (botUserId st) ev id b s →
  asTruthy (event_id ev) = Some id ∧ verdict st ev = Actionable b s.
Proof.
  intros Hcfg (Hid & Hne & Htype & Hmsg & Hs & Hsne & Hb & Hbne & Hbot & Hhuman & Hexit).
  split; [by apply asTruthy_Some|].
  unfold verdict. rewrite Hcfg, Htype, Hmsg, Hs, Hb.
  rewrite !bool_decide_eq_false_2 by naive_solver.
  assert (asTruthy (Some s) = Some s) as -> by by apply asTruthy_Some.
  assert (asTruthy (Some b) = Some b) as -> by by apply asTruthy_Some.
  rewrite (bool_decide_eq_false_2 (botUserId st = Some s)) by done.
  rewrite bool_decide_eq_true_2 by done.
  by rewrite bool_decide_eq_false_2 by done.
Qed.

Lemma dispatchedIds_app tr1 tr2 :
  dispatchedIds (tr1 ++ tr2) = dispatchedIds tr1 ++ dispatchedIds tr2.
Proof. apply omap_app. Qed.

(** What a pass adds to the trace. *)
Lemma processEvent_trace st cfg ev r st' :
  config st = Some cfg → processEvent ev st = (r, st') →
  ∃ tr, trace st' = trace st ++ tr ∧
    (tr = [] ∨ tr = [CallExit] ∨
     ∃ id b s, tr = [CallMessage id b s] ∧ actionable cfg (botUserId st) ev id b s).
Proof.
  intros Hcfg. rewrite processEvent_unfold.
  destruct (asTruthy (event_id ev)) as [id|] eqn:Hid; cycle 1.
  { intros [= <- <-]. exists []. rewrite app_nil_r. auto. }
  destruct (Set_has id (seen st)).
  { intros [= <- <-]. exists []. rewrite app_nil_r. auto. }
  destruct (verdict st ev) as [| |b s|] eqn:Hv; cbv zeta.
  - intros [= <- <-]. exists []. rewrite app_nil_r. auto.
  - destruct (exitCallback st) as [cb|]; [destruct (cb (now st))|];
      intros [= <- <-]; simpl.
    + exists [CallExit]. auto.
    + exists [CallExit]. auto.
    + exists []. rewrite app_nil_r. auto.
  - pose proof (verdict_actionable st cfg ev id b s Hcfg Hid Hv) as Hact.
    destruct (messageCallback st) as [cb|]; [destruct (cb b s (now st))|];
      intros [= <- <-]; simpl.
    + exists [CallMessage id b s]. split; [done|]. right; right. eauto.
    + exists [CallMessage id b s]. split; [done|]. right; right. eauto.
    + exists []. rewrite app_nil_r. auto.
  - intros [= <- <-]. exists []. rewrite app_nil_r. auto.
Qed.

(** What a batch adds to the trace: the exit callback and dispatches of
    actionable events of the batch, in the order of the batch. *)
Lemma forEvents_trace st cfg evs r st' :
  config st = Some cfg → forEvents evs st = (r, st') →
  ∃ tr, trace st' = trace st ++ tr ∧
    Forall (λ a, a = CallExit ∨
                 ∃ ev id b s, a = CallMessage id b s ∧ ev ∈ evs ∧
                              actionable cfg (botUserId st) ev id b s) tr ∧
    dispatchedIds tr `sublist_of` batchIds [evs].
Proof.
  revert st. induction evs as [|ev evs IH]; intros st Hcfg; simpl.
  - intros [= <- <-]. exists []. rewrite app_nil_r. split_and!; [done|constructor|done].
  - unfold mbind, M_bind, bind.
    destruct (processEvent ev st) as [rc st1] eqn:Hev.
    pose proof Hev as ((Hs1 & _ & _ & _ & Hs5) & _)%processEvent_effect.
    apply (processEvent_trace st cfg) in Hev as (tr1 & Ht1 & Hshape); [|done].
    assert (Forall (λ a, a = CallExit ∨
                     ∃ ev' id b s, a = CallMessage id b s ∧ ev' ∈ ev :: evs ∧
                                   actionable cfg (botUserId st) ev' id b s) tr1 ∧
            dispatchedIds tr1 `sublist_of` batchIds [[ev]]) as [Hall1 Hsub1].
    { destruct Hshape as [->|[->|(id & b & s & -> & Hact)]].
      - split; [constructor|apply sublist_nil_l].
      - split; [apply Forall_singleton; by left|apply sublist_nil_l].
      - split.
        + apply Forall_singleton. right. exists ev, id, b, s.
          split_and!; [done|apply list_elem_of_here|done].
        + apply (actionable_verdict st cfg) in Hact as [Hid _]; [|done].
          unfold batchIds. simpl. by rewrite Hid. }
    assert (batchIds [ev :: evs] = batchIds [[ev]] ++ batchIds [evs]) as Hids.
    { unfold batchIds. simpl. rewrite !app_nil_r.
      by destruct (asTruthy (event_id ev)). }
    assert (∀ tr2 (r2 : Result Control) st2,
              (r2, st2) = (r, st') →
              trace st2 = trace st1 ++ tr2 →
              Forall (λ a, a = CallExit ∨
                       ∃ ev' id b s, a = CallMessage id b s ∧ ev' ∈ evs ∧
                                     actionable cfg (botUserId st1) ev' id b s) tr2 →
              dispatchedIds tr2 `sublist_of` batchIds [evs] →
              ∃ tr, trace st' = trace st ++ tr ∧
                Forall (λ a, a = CallExit ∨
                         ∃ ev' id b s, a = CallMessage id b s ∧ ev' ∈ ev :: evs ∧
                                       actionable cfg (botUserId st) ev' id b s) tr ∧
                dispatchedIds tr `sublist_of` batchIds [ev :: evs]) as Hjoin.
    { intros tr2 r2 st2 [= <- <-] Ht2 Hall2 Hsub2. exists (tr1 ++ tr2).
      rewrite Ht2, Ht1, (assoc_L (++)). split_and!; [done| |].
      - apply Forall_app. split; [done|].
        eapply Forall_impl; [exact Hall2|]. simpl.
        intros a [->|(ev' & id & b & s & -> & Hin & Hact)]; [by left|right].
        exists ev', id, b, s. rewrite <-Hs5. split_and!; [done|by apply list_elem_of_further|done].
      - rewrite dispatchedIds_app, Hids. by apply sublist_app. }
    destruct rc as [[]|v].
    + intros Hrest. pose proof Hrest as (tr2 & Ht2 & Hall2 & Hsub2)%IH; [|congruence].
      by eapply (Hjoin tr2).
    + intros Heq. apply (Hjoin [] _ _ Heq); [by rewrite app_nil_r|constructor|apply sublist_nil_l].
    + intros Heq. apply (Hjoin [] _ _ Heq); [by rewrite app_nil_r|constructor|apply sublist_nil_l].
Qed.

End Dispatch.

(** X5 (only the human's messages are dispatched).  Whatever a batch
    contains, every call of the message callback made while it is processed
    is for an event of that batch that is a text message with a non-empty
    identifier, sender and body, whose sender is the configured human and
    not the bot, and whose body is not "exit" in any spelling of case; the
    callback receives that body and that sender. *)
Theorem dispatch_is_sound
    (st st' : State) (cfg : MatrixClientConfig) (evs : list MatrixEvent)
    (r : Result unit) :
  config st = Some cfg →
  processEventsAsync evs st = (r, st') →
  ∃ tr, trace st' = trace st ++ tr ∧
    ∀ id b s, CallMessage id b s ∈ tr →
      ∃ ev, ev ∈ evs ∧ actionable cfg (botUserId st) ev id b s.
Proof.
  intros Hcfg. unfold processEventsAsync, get, ret, mbind, M_bind, bind.
  case_match.
  { intros [= <- <-]. exists []. rewrite app_nil_r. split; [done|].
    by intros id b s ?%not_elem_of_nil. }
  destruct (forEvents evs st) as [rc st1] eqn:Hev.
  apply (forEvents_trace st cfg) in Hev as (tr & Ht & Hall & _); [|done].
  intros Heq. assert (st' = st1) as -> by (destruct rc; by injection Heq).
  exists tr. split; [done|]. intros id b s Hin.
  rewrite Forall_forall in Hall.
  destruct (Hall _ Hin) as [[=]|(ev & id' & b' & s' & [= -> -> ->] & Hev & Hact)].
  eauto.
Qed.

Lemma dispatch_is_sound_witness :
  let evs := [Demo.text "e1" "@stranger:x" "hi"; Demo.text "e2" Demo.human "hello"] in
  ∃ tr, trace (processEventsAsync evs Demo.ready).2 = trace Demo.ready ++ tr ∧
    ∀ id b s, CallMessage id b s ∈ tr →
      ∃ ev, ev ∈ evs ∧ actionable Demo.cfg (botUserId Demo.ready) ev id b s.
Proof.
  intros evs.
  apply (dispatch_is_sound Demo.ready _ Demo.cfg evs (processEventsAsync evs Demo.ready).1);
    [reflexivity|apply surjective_pairing].
Defined.

(** X6 (dispatch follows the batch).  The identifiers of the events
    dispatched while a batch is processed are, in the order of dispatch,
    identifiers of the batch in the order of the batch, each position of the
    batch used at most once: messages are never reordered and an event is
    not dispatched twice by one pass over it. *)
Theorem dispatch_in_batch_order
    (st st' : State) (cfg : MatrixClientConfig) (evs : list MatrixEvent)
    (r : Result unit) :
  config st = Some cfg →
  processEventsAsync evs st = (r, st') →
  ∃ tr, trace st' = trace st ++ tr ∧
    dispatchedIds tr `sublist_of` batchIds [evs].
Proof.
  intros Hcfg. unfold processEventsAsync, get, ret, mbind, M_bind, bind.
  case_match.
  { intros [= <- <-]. exists []. rewrite app_nil_r. split; [done|apply sublist_nil_l]. }
  destruct (forEvents evs st) as [rc st1] eqn:Hev.
  apply (forEvents_trace st cfg) in Hev as (tr & Ht & _ & Hsub); [|done].
  intros Heq. assert (st' = st1) as -> by (destruct rc; by injection Heq).
  by exists tr.
Qed.

Lemma dispatch_in_batch_order_witness :
  let evs := [Demo.text "e1" Demo.human "one"; Demo.text "e2" Demo.bot "echo";
              Demo.text "e3" Demo.human "three"] in
  ∃ tr, trace (processEventsAsync evs Demo.ready).2 = trace Demo.ready ++ tr ∧
    dispatchedIds tr `sublist_of` ["e1"; "e2"; "e3"].
Proof.
  intros evs.
  apply (dispatch_in_batch_order Demo.ready _ Demo.cfg evs
           (processEventsAsync evs Demo.ready).1);
    [reflexivity|apply surjective_pairing].
Defined.

(** X7 (a failing message callback).  Let a batch reach, without an
    earlier exit or exception, a new actionable event, and let the message
    callback throw [v] on it.  Then [processEventsAsync] ends with [v]: the
    event has been handed to the callback and recorded in the dedup window,
    nothing of the rest of the batch is looked at, and the running flag is
    as it was.  Since the event is recorded, it is not dispatched again when
    it is delivered once more: a message on which the callback failed is not
    retried. *)
Theorem callback_failure_drops_rest_of_batch
    (st st_c : State) (cfg : MatrixClientConfig)
    (pre post : list MatrixEvent) (ev : MatrixEvent) (id b s : string)
    (cb : MessageCallback) (v : Thrown) :
  config st = Some cfg → truthy (botUserId st) = true → window_ok st →
  forEvents pre st = (Ok Continue, st_c) →
  actionable cfg (botUserId st) ev id b s → id ∉ seen st_c →
  messageCallback st = Some cb → cb b s (now st_c) = Throws v →
  ∃ st',
    processEventsAsync (pre ++ ev :: post) st = (Throw v, st') ∧
    trace st' = trace st_c ++ [CallMessage id b s] ∧
    seen st' = recordSeen id (seen st_c) ∧
    running st' = running st ∧
    processEvent ev st' = (Ok Continue, st').
Proof.
  intros Hcfg Hbot Hok Hpre Hact Hnew Hcb Hthrow.
  pose proof Hpre as ((Hs1 & Hs2 & _ & _ & Hs5) & _ & _ & Hr)%forEvents_effect.
  simpl in Hr. pose proof (forEvents_window _ _ _ _ Hok Hpre) as [Hnd Hlen].
  assert (config st_c = Some cfg) as Hcfg_c by congruence.
  rewrite <-Hs5 in Hact.
  destruct (actionable_verdict st_c cfg ev id b s Hcfg_c Hact) as [Hid Hv].
  set (st' := log (CallMessage id b s) (set_seen (recordSeen id (seen st_c)) st_c)).
  exists st'. split_and!; try done.
  - unfold processEventsAsync, get, ret, mbind, M_bind, bind.
    rewrite Hcfg, Hbot, bool_decide_eq_false_2 by done. simpl.
    rewrite (forEvents_app pre _ st st_c Hpre). simpl.
    unfold mbind, M_bind, bind. rewrite processEvent_unfold, Hid.
    apply Set_has_false in Hnew as ->. rewrite Hv. cbv zeta.
    by rewrite Hs2, Hcb, Hthrow.
  - rewrite processEvent_unfold, Hid.
    destruct (recordSeen_window id (seen st_c)) as (_ & _ & k & _ & Hk); [done..|].
    assert (Set_has id (seen st') = true) as ->; [|done].
    apply Set_has_true. simpl. rewrite Hk. apply elem_of_app. right.
    apply list_elem_of_here.
Qed.

Lemma callback_failure_drops_rest_of_batch_witness :
  let failing : MessageCallback := λ _ _ _, Throws (ThrownValue "busy") in
  let st := set_messageCallback (Some failing) Demo.ready in
  let hi := Demo.text "e1" Demo.human "hi" in
  ∃ st', processEventsAsync [hi; Demo.text "e2" Demo.human "more"] st
           = (Throw (ThrownValue "busy"), st') ∧
    trace st' = [CallMessage "e1" "hi" Demo.human] ∧
    processEvent hi st' = (Ok Continue, st').
Proof.
  intros failing st hi.
  destruct (callback_failure_drops_rest_of_batch st st Demo.cfg []
              [Demo.text "e2" Demo.human "more"] hi "e1" "hi" Demo.human failing
              (ThrownValue "busy"))
    as (st' & Hrun & Ht & _ & _ & Hagain).
  - reflexivity.
  - reflexivity.
  - apply window_ok_initial.
  - reflexivity.
  - unfold actionable. by split_and!.
  - apply not_elem_of_nil.
  - reflexivity.
  - reflexivity.
  - exists st'. by split_and!.
Defined.

(** X8 (a failing error callback).  Let the [try] block of an iteration of
    the running loop end in an exception [v] and let the error callback
    throw [v'] when handed it.  Then the promise of the loop is rejected
    with [v']: there is no back-off and no further poll, whatever fuel is
    left, while the running flag still says that the session runs. *)
Theorem error_callback_failure_ends_loop
    (net : Network) (st st1 : State) (cfg : MatrixClientConfig)
    (v v' : Thrown) (ecb : ErrorCallback) (fuel : nat) :
  config st = Some cfg → running st = true →
  tryBlock net st = (Throw v, st1) →
  errorCallback st = Some ecb → ecb (toError v) (now st1) = Throws v' →
  ∃ st2,
    whileRunning net (S fuel) st = (LoopRejected v', st2) ∧
    trace st2 = trace st1 ++ [CallError (toError v)] ∧
    running st2 = true.
Proof.
  intros Hcfg Hr Htry Hecb Hthrow.
  pose proof Htry as ((_ & _ & Hs3 & _) & _ & Hr1 & _)%tryBlock_effect; [|done].
  destruct Hr1 as [Hr1|[? _]]; [|done].
  exists (log (CallError (toError v)) st1). split_and!.
  - apply throwing_error_callback_ends_loop with (ecb := ecb); [done|done|congruence|done].
  - done.
  - simpl. congruence.
Qed.

Lemma error_callback_failure_ends_loop_witness :
  ∃ st2, whileRunning Demo.refusing 5 Demo.readyThrowingError
           = (LoopRejected (ThrownError {| message := "onError failed" |}), st2) ∧
    trace st2 = [ReqSync (Some "T1") 30000; ReqJoin "!a";
                 CallError {| message := "HTTP 403 Forbidden" |}] ∧
    running st2 = true.
Proof.
  destruct (error_callback_failure_ends_loop Demo.refusing Demo.readyThrowingError
              (tryBlock Demo.refusing Demo.readyThrowingError).2 Demo.cfg
              (ThrownError {| message := "HTTP 403 Forbidden" |})
              (ThrownError {| message := "onError failed" |})
              (λ _ _, Throws (ThrownError {| message := "onError failed" |})) 4)
    as (st2 & Hloop & Ht & Hr); [reflexivity..|].
  exists st2. split_and!; [done|by rewrite Ht|done].
Defined.

(** X11 (recorded before filtered).  A pass over an event with a new,
    non-empty identifier records that identifier as the newest entry of the
    window, evicting the oldest entry exactly when the window was full,
    whatever the type, sender and body of the event and whatever the
    callbacks do: events that are ignored take room in the window like
    those that are dispatched. *)
Theorem new_event_always_recorded
    (st st' : State) (ev : MatrixEvent) (id : string) (r : Result Control) :
  window_ok st → asTruthy (event_id ev) = Some id → id ∉ seen st →
  processEvent ev st = (r, st') →
  seen st' = drop (S (length (seen st)) - MAX_SEEN) (seen st) ++ [id].
Proof.
  intros [Hnd Hlen] Hid Hnew. rewrite processEvent_unfold, Hid.
  pose proof Hnew as ->%Set_has_false.
  assert (recordSeen id (seen st)
            = drop (S (length (seen st)) - MAX_SEEN) (seen st) ++ [id]) as Hrec.
  { pose proof MAX_SEEN_pos. rewrite recordSeen_fresh by done.
    by rewrite drop_app_le by lia. }
  cbv zeta. intros Hrun.
  repeat case_match; injection Hrun as <- <-; exact Hrec.
Qed.

Lemma new_event_always_recorded_witness :
  let foreign := Demo.text "e7" "@stranger:x" "exit" in
  seen (processEvent foreign Demo.ready).2 = ["e7"].
Proof.
  intros foreign.
  rewrite (new_event_always_recorded Demo.ready _ foreign "e7"
             (processEvent foreign Demo.ready).1);
    [reflexivity|apply window_ok_initial|reflexivity|apply not_elem_of_nil
    |apply surjective_pairing].
Defined.

(** ** What the loop puts on the wire *)

Section LoopActions.

Variable net : Network.

Implicit Types (st : State).

Lemma sinceParam_not_empty c : sinceParam c ≠ Some "".
Proof. unfold sinceParam. by intros [_ ?]%asTruthy_Some. Qed.

Lemma Forall_loopAction_joins (rids : list string) :
  Forall loopAction (ReqJoin <$> rids).
Proof. induction rids; by constructor. Qed.

Lemma processEventsAsync_actions evs st r st' :
  processEventsAsync evs st = (r, st') →
  ∃ tr, trace st' = trace st ++ tr ∧ Forall loopAction tr.
Proof.
  unfold processEventsAsync, get, ret, mbind, M_bind, bind.
  destruct (config st) as [cfg|] eqn:Hcfg; simpl.
  2:{ intros [= <- <-]. exists []. by rewrite app_nil_r. }
  case_match.
  { intros [= <- <-]. exists []. by rewrite app_nil_r. }
  destruct (forEvents evs st) as [rc st1] eqn:Hev.
  apply (forEvents_trace st cfg) in Hev as (tr & Ht & Hall & _); [|done].
  intros Heq. assert (st' = st1) as -> by (destruct rc; by injection Heq).
  exists tr. split; [done|]. eapply Forall_impl; [exact Hall|].
  by intros a [->|(? & ? & ? & ? & -> & _)].
Qed.

Lemma tryBlock_actions st r st' :
  is_Some (config st) → tryBlock net st = (r, st') →
  ∃ tr, trace st' = trace st ++ tr ∧ Forall loopAction tr.
Proof.
  intros [cfg Hcfg]. unfold tryBlock, pollAndJoin, syncOnceAsync, apiAsync.
  unfold modify, get, ret, throw, mbind, M_bind, bind. rewrite Hcfg.
  assert (loopAction (ReqSync (sinceParam (since st)) 30000)) as Hpoll.
  { split; [done|apply sinceParam_not_empty]. }
  destruct (net_sync net (now st) (sinceParam (since st)) 30000) as [s|v]; cycle 1.
  { intros [= <- <-]. exists [ReqSync (sinceParam (since st)) 30000]. split; [done|].
    by apply Forall_singleton. }
  destruct (truthy (next_batch s)); simpl.
  all: match goal with
       | |- context [joinInvited _ ?rids ?st0] =>
           destruct (joinInvited net rids st0) as [rj st_b] eqn:Hjoin;
           pose proof Hjoin as (_ & _ & _ & _ & k & Hb)%joinInvited_effect;
           assert (Forall loopAction
                     ([ReqSync (sinceParam (since st)) 30000] ++ (ReqJoin <$> take k rids)))
             as Hpre by (apply Forall_app; split;
                           [by apply Forall_singleton|apply Forall_loopAction_joins])
       end.
  all: simpl in Hb; rewrite <-(assoc_L (++)) in Hb.
  all: destruct rj as [[]|v];
         [|intros [= <- <-]; eexists; split; [exact Hb|exact Hpre]].
  all: destruct (config st_b);
         [|intros [= <- <-]; eexists; split; [exact Hb|exact Hpre]].
  all: intros (tr & Ht & Hall)%processEventsAsync_actions.
  all: eexists; split; [by rewrite Ht, Hb, <-(assoc_L (++))|].
  all: apply Forall_app; by split.
Qed.

Lemma catchBlock_actions v st r st' :
  catchBlock v st = (r, st') →
  ∃ tr, trace st' = trace st ++ tr ∧ Forall loopAction tr.
Proof.
  unfold catchBlock. unfold_monad.
  destruct (errorCallback st) as [cb|]; [destruct (cb _ _)|]; intros [= <- <-]; simpl.
  - exists [CallError (toError v); Sleep 2000].
    split; [by rewrite <-(assoc_L (++))|by repeat constructor].
  - exists [CallError (toError v)]. split; [done|by repeat constructor].
  - exists [Sleep 2000]. split; [done|by repeat constructor].
Qed.

End LoopActions.

(** X9 (what the loop sends).  Everything the loop adds to the trace,
    however long it runs and however it ends, is a join, a callback
    invocation, a back-off of 2000 ms, or a poll with a wait of 30000 ms whose
    [since]
    parameter is absent or a non-empty string: the loop never polls with a
    zero wait, never sends an empty cursor and never repeats the identity
    lookup. *)
Theorem loop_only_long_polls
    (net : Network) (fuel : nat) (st st' : State) (e : LoopEnd) :
  is_Some (config st) →
  whileRunning net fuel st = (e, st') →
  ∃ tr, trace st' = trace st ++ tr ∧ Forall loopAction tr.
Proof.
  revert st. induction fuel as [|fuel IH]; intros st Hcfg; simpl.
  - destruct (running st); intros [= <- <-]; exists []; by rewrite app_nil_r.
  - destruct (running st); cycle 1.
    { intros [= <- <-]. exists []. by rewrite app_nil_r. }
    unfold try_catch.
    destruct (tryBlock net st) as [[[]|v] st1] eqn:Htry;
      pose proof Htry as ([Hc _] & _)%tryBlock_effect; try done;
      apply tryBlock_actions in Htry as (tr1 & Ht1 & Hall1); try done.
    + intros (tr2 & Ht2 & Hall2)%IH; [|by rewrite Hc].
      exists (tr1 ++ tr2). split; [by rewrite Ht2, Ht1, (assoc_L (++))|].
      apply Forall_app. by split.
    + destruct (catchBlock v st1) as [[[]|v'] st2] eqn:Hcatch;
        pose proof Hcatch as ([Hc' _] & _)%catchBlock_effect;
        apply catchBlock_actions in Hcatch as (tr2 & Ht2 & Hall2).
      * intros (tr3 & Ht3 & Hall3)%IH; [|by rewrite Hc', Hc].
        exists (tr1 ++ tr2 ++ tr3).
        split; [by rewrite Ht3, Ht2, Ht1, <-!(assoc_L (++))|].
        rewrite !Forall_app. by split_and!.
      * intros [= <- <-]. exists (tr1 ++ tr2).
        split; [by rewrite Ht2, Ht1, (assoc_L (++))|].
        apply Forall_app. by split.
Qed.

Lemma loop_only_long_polls_witness :
  ∃ tr, trace (whileRunning Demo.refusing 3 Demo.ready).2 = trace Demo.ready ++ tr ∧
        Forall loopAction tr.
Proof.
  apply (loop_only_long_polls Demo.refusing 3 Demo.ready _
           (whileRunning Demo.refusing 3 Demo.ready).1);
    [by eexists|apply surjective_pairing].
Defined.

(** ** The exit command *)

Section ExitCommand.


End ExitCommand.




(** ** The transport in detail *)

Section HttpFacts.

Variable J : Type.
Variable fetch : Http.FetchCall → Http.FetchOutcome.
Variable JSON_parse : string → Result J.
Variable stringifyText : string → string.
Variable enc : string → string.
Variable headerValue : string → Result string.
Variable slice800 : string → string.

Implicit Types (st : State) (cfg : MatrixClientConfig) (init : Http.RequestInit).

(** The request that is made when the platform accepts the header values. *)
Lemma apiAsync_made path init st cfg h0 auth ct :
  config st = Some cfg → Http.headers init = Ok h0 →
  headerValue ("Bearer " +:+ botAccessToken cfg) = Ok auth →
  (needsContentType h0 (Http.body init) = true →
   headerValue "application/json" = Ok ct) →
  Http.apiAsync J fetch JSON_parse headerValue slice800 path init st =
    let call := {| Http.url := homeserver cfg +:+ path;
                   Http.call_method := Http.method init;
                   Http.call_headers := sentHeaders auth ct h0 (Http.body init);
                   Http.call_body := Http.body init |} in
    ([call], Http.received J JSON_parse slice800 path (fetch call)).
Proof.
  intros Hcfg Hh Hauth Hct. unfold Http.apiAsync, sentHeaders, needsContentType in *.
  rewrite Hcfg, Hh. unfold Http.Headers_has, Http.Headers_set. rewrite Hauth.
  change (toLowerCase "Authorization") with "authorization".
  change (toLowerCase "Content-Type") with "content-type".
  rewrite lookup_insert_ne by done.
  destruct (Http.body init) as [b|]; simpl; [|done].
  destruct (h0 !! "content-type") as [c|] eqn:Hc.
  - rewrite bool_decide_eq_true_2 by by eexists. done.
  - rewrite bool_decide_eq_false_2 by by intros []. simpl. by rewrite Hct.
Qed.

(** No request is made when the platform rejects the authorization value,
    or the content type the function sets itself. *)
Lemma apiAsync_rejected path init st cfg h0 e :
  config st = Some cfg → Http.headers init = Ok h0 →
  headerValue ("Bearer " +:+ botAccessToken cfg) = Throw e
  ∨ is_Some (match headerValue ("Bearer " +:+ botAccessToken cfg) with
             | Ok auth => Some auth | Throw _ => None end)
    ∧ needsContentType h0 (Http.body init) = true
    ∧ headerValue "application/json" = Throw e →
  Http.apiAsync J fetch JSON_parse headerValue slice800 path init st = ([], Throw e).
Proof.
  intros Hcfg Hh Hcase. unfold Http.apiAsync, needsContentType in *.
  rewrite Hcfg, Hh. unfold Http.Headers_has, Http.Headers_set.
  destruct Hcase as [->|(Hauth & Hneed & Hct)]; [done|].
  destruct (headerValue ("Bearer " +:+ botAccessToken cfg)) as [auth|e'];
    [|by destruct Hauth].
  change (toLowerCase "Authorization") with "authorization".
  change (toLowerCase "Content-Type") with "content-type".
  rewrite lookup_insert_ne by done.
  destruct (Http.body init) as [b|]; [|done].
  destruct (h0 !! "content-type") as [c|] eqn:Hc; [done|].
  rewrite bool_decide_eq_true_2 by by eexists.
  rewrite bool_decide_eq_false_2 by by intros []. simpl. by rewrite Hct.
Qed.


End HttpFacts.

(** X12 (the headers of a request).  [apiAsync] hands the bot's token, as
    "Bearer <token>", and, when there is a body and the caller gave no
    content type, "application/json" to the platform's [Headers], and makes
    no request at all when the caller's headers or one of these values is
    rejected: the exception is what the call ends with.  Otherwise it makes
    exactly one request, to the homeserver's URL followed by the path, with
    the method and body it was given.  The request carries as authorization
    the value the platform has stored for "Bearer <token>", replacing any
    authorization header of the caller.  Its content type is the caller's if
    the caller set one, the value stored for "application/json" if the
    caller set none and there is a body, and absent if there is no body.
    Every other header is the caller's. *)
Theorem api_request_headers
    (J : Type) (fetch : Http.FetchCall → Http.FetchOutcome)
    (JSON_parse : string → Result J) (headerValue : string → Result string)
    (slice800 : string → string)
    (path : string) (init : Http.RequestInit) (st : State) (cfg : MatrixClientConfig) :
  config st = Some cfg →
  (∀ e, Http.headers init = Throw e →
     Http.apiAsync J fetch JSON_parse headerValue slice800 path init st = ([], Throw e))
  ∧ (∀ h0 e, Http.headers init = Ok h0 →
       headerValue ("Bearer " +:+ botAccessToken cfg) = Throw e →
       Http.apiAsync J fetch JSON_parse headerValue slice800 path init st = ([], Throw e))
  ∧ (∀ h0 auth e, Http.headers init = Ok h0 →
       headerValue ("Bearer " +:+ botAccessToken cfg) = Ok auth →
       needsContentType h0 (Http.body init) = true →
       headerValue "application/json" = Throw e →
       Http.apiAsync J fetch JSON_parse headerValue slice800 path init st = ([], Throw e))
  ∧ (∀ h0 auth ct, Http.headers init = Ok h0 →
       headerValue ("Bearer " +:+ botAccessToken cfg) = Ok auth →
       (needsContentType h0 (Http.body init) = true →
        headerValue "application/json" = Ok ct) →
       ∃ call,
         (Http.apiAsync J fetch JSON_parse headerValue slice800 path init st).1 = [call] ∧
         Http.url call = homeserver cfg +:+ path ∧
         Http.call_method call = Http.method init ∧
         Http.call_body call = Http.body init ∧
         Http.call_headers call !! "authorization" = Some auth ∧
         Http.call_headers call !! "content-type"
           = match h0 !! "content-type" with
             | Some c => Some c
             | None => if Http.body init is Some _ then Some ct else None
             end ∧
         ∀ name, name ≠ "authorization" → name ≠ "content-type" →
           Http.call_headers call !! name = h0 !! name).
Proof.
  intros Hcfg. split_and!.
  - intros e He. unfold Http.apiAsync. by rewrite Hcfg, He.
  - intros h0 e Hh He. apply (apiAsync_rejected _ _ _ _ _ _ _ _ cfg h0); auto.
  - intros h0 auth e Hh Hauth Hneed He.
    apply (apiAsync_rejected _ _ _ _ _ _ _ _ cfg h0); [done..|].
    right. rewrite Hauth. by split_and!.
  - intros h0 auth ct Hh Hauth Hct.
    rewrite (apiAsync_made _ _ _ _ _ _ _ _ cfg h0 auth ct) by done.
    eexists. split; [done|]. simpl. unfold sentHeaders. split_and!; try done.
    + destruct (Http.body init), (h0 !! "content-type"); simpl;
        rewrite ?(lookup_insert_ne _ "content-type" "authorization") by done;
        by rewrite lookup_insert_eq.
    + destruct (Http.body init), (h0 !! "content-type") eqn:Hc; simpl;
        rewrite ?lookup_insert_eq, ?(lookup_insert_ne _ "authorization" "content-type")
          by done;
        done.
    + intros name Ha Hc.
      destruct (Http.body init), (h0 !! "content-type"); simpl;
        by rewrite ?lookup_insert_ne by done.
Qed.

Lemma api_request_headers_witness :
  let init := {| Http.method := Some "PUT";
                 Http.headers :=
                   Ok {[ "authorization" := "Basic abc"; "accept" := "text/plain" ]};
                 Http.body := Some "{}" |} in
  let fetch := Demo.answering {| Http.ok := true; Http.status := 200;
                                 Http.statusText := "OK"; Http.text := Ok "" |} in
  (∃ call,
     (Http.apiAsync unit fetch (λ _, Ok tt) Demo.headerValue Demo.slice800 "/x" init
        Demo.readyPadded).1 = [call] ∧
     Http.call_headers call !! "authorization" = Some "Bearer tok" ∧
     Http.call_headers call !! "content-type" = Some "application/json" ∧
     Http.call_headers call !! "accept" = Some "text/plain")
  ∧ Http.apiAsync unit fetch (λ _, Ok tt) Demo.headerValue Demo.slice800 "/x" init
      Demo.readyBroken
    = ([], Throw (ThrownError {| message := "Header has invalid value" |})).
Proof.
  intros init fetch. split.
  - destruct (api_request_headers unit fetch (λ _, Ok tt) Demo.headerValue Demo.slice800
                "/x" init Demo.readyPadded _ eq_refl) as (_ & _ & _ & Hmade).
    destruct (Hmade _ "Bearer tok" "application/json" eq_refl eq_refl)
      as (call & Hcalls & _ & _ & _ & Hauth & Hct & Hother); [done|].
    exists call. split_and!; [done|done|by rewrite Hct|by rewrite Hother].
  - destruct (api_request_headers unit fetch (λ _, Ok tt) Demo.headerValue Demo.slice800
                "/x" init Demo.readyBroken _ eq_refl) as (_ & Hrejected & _).
    by apply (Hrejected _ _ eq_refl).
Defined.

(** X13 (a response that is not ok).  When a request has been made and
    the server answers with a status that is not ok, [apiAsync] throws an
    error whose message is "HTTP", the status, the status text, "for" and
    the path, a line feed, and then what [slice(0, 800)] gives of the
    response body, or nothing when the body is empty.  The body is not
    parsed: the outcome is the same whatever [JSON.parse] would make of
    it. *)
Theorem non_ok_response_throws
    (J : Type) (fetch : Http.FetchCall → Http.FetchOutcome)
    (JSON_parse : string → Result J) (headerValue : string → Result string)
    (slice800 : string → string)
    (path : string) (init : Http.RequestInit) (st : State) (cfg : MatrixClientConfig)
    (h0 : gmap string string) (auth ct : string) (res : Http.Response) (t : string) :
  config st = Some cfg → Http.headers init = Ok h0 →
  headerValue ("Bearer " +:+ botAccessToken cfg) = Ok auth →
  (needsContentType h0 (Http.body init) = true →
   headerValue "application/json" = Ok ct) →
  (∀ call, fetch call = Http.FetchResolves res) →
  Http.ok res = false → Http.text res = Ok t →
  ∃ call,
    Http.apiAsync J fetch JSON_parse headerValue slice800 path init st =
      ([call],
       Throw (ThrownError {| message :=
         "HTTP " +:+ pretty (Http.status res) +:+ " " +:+ Http.statusText res
         +:+ " for " +:+ path +:+ Http.newline
         +:+ (if bool_decide (t = "") then "" else slice800 t) |})).
Proof.
  intros Hcfg Hh Hauth Hct Hres Hok Ht.
  rewrite (apiAsync_made _ _ _ _ _ _ _ _ cfg h0 auth ct) by done.
  cbv zeta. eexists. f_equal. rewrite Hres. unfold Http.received, Http.httpErrorMessage.
  rewrite Ht, Hok. simpl. do 3 f_equal.
  destruct (decide (t = "")) as [->|Hne]; [done|].
  by rewrite bool_decide_eq_true_2, bool_decide_eq_false_2.
Qed.

Lemma non_ok_response_throws_witness :
  let res := {| Http.ok := false; Http.status := 403; Http.statusText := "Forbidden";
                Http.text := Ok "M_FORBIDDEN" |} in
  (Http.apiAsync unit (Demo.answering res) (λ _, Ok tt) Demo.headerValue Demo.slice800
     "/join" {| Http.method := Some "POST"; Http.headers := Ok ∅; Http.body := None |}
     Demo.ready).2
  = Throw (ThrownError {| message :=
      "HTTP 403 Forbidden for /join" +:+ Http.newline +:+ "M_FORBIDDEN" |}).
Proof.
  intros res.
  destruct (non_ok_response_throws unit (Demo.answering res) (λ _, Ok tt)
              Demo.headerValue Demo.slice800 "/join"
              {| Http.method := Some "POST"; Http.headers := Ok ∅; Http.body := None |}
              Demo.ready Demo.cfg ∅ "Bearer token" "" res "M_FORBIDDEN")
    as [call ->]; [reflexivity|reflexivity|reflexivity|done|done|reflexivity|reflexivity|].
  reflexivity.
Defined.





(** ** Transaction identifiers *)

Section TransactionIds.

Lemma pretty_N_char_digit (x : N) : (48 ≤ nat_of_ascii (pretty_N_char x) ≤ 57)%nat.
Proof. unfold pretty_N_char. repeat case_match; vm_compute; lia. Qed.

Lemma pretty_N_go_digits (x : N) (s : string) :
  all_digits s → all_digits (pretty_N_go x s).
Proof.
  revert s. induction (N.lt_wf_0 x) as [x _ IH]; intros s Hs.
  destruct (decide (x = 0)%N) as [->|Hx].
  - by rewrite pretty_N_go_0.
  - rewrite pretty_N_go_step by lia. apply IH.
    + apply N.div_lt; lia.
    + split; [apply pretty_N_char_digit|done].
Qed.

Lemma pretty_N_digits (x : N) : all_digits (pretty x).
Proof.
  unfold pretty, pretty_N. case_decide.
  - simpl. split; [vm_compute; lia|done].
  - by apply pretty_N_go_digits.
Qed.

(** Digits, a dash and the rest: the dash found first is that dash. *)
Lemma digits_dash_inj (p1 p2 r1 r2 : string) :
  all_digits p1 → all_digits p2 →
  p1 +:+ "-" +:+ r1 = p2 +:+ "-" +:+ r2 → p1 = p2 ∧ r1 = r2.
Proof.
  revert p2. induction p1 as [|c1 p1 IH]; intros [|c2 p2]; simpl.
  - intros _ _ [= Heq]. split; [done|exact Heq].
  - intros _ [Hc _] [= <- _]. vm_compute in Hc. lia.
  - intros [Hc _] _ [= -> _]. vm_compute in Hc. lia.
  - intros [_ H1] [_ H2] [= -> Heq]. by destruct (IH p2 H1 H2 Heq) as [-> ->].
Qed.

Lemma append_inj_r (p s1 s2 : string) : p +:+ s1 = p +:+ s2 → s1 = s2.
Proof. induction p as [|c p IH]; simpl; [done|]. intros [= ?]. auto. Qed.

End TransactionIds.

(** X16 (transaction identifiers).  The request of a send determines the
    clock value and the random part it was made from (the encoding of URL
    components being injective): of two sends of the session that reach
    [fetch], the platform having accepted the header values, the two go to
    the same URL, that is, carry the same transaction identifier, only if
    they were made at the same clock value and drew the same random part. *)
Theorem send_transaction_ids_differ
    (J : Type) (fetch : Http.FetchCall → Http.FetchOutcome)
    (JSON_parse : string → Result J) (stringifyText enc : string → string)
    (headerValue : string → Result string) (slice800 : string → string)
    (st : State) (cfg : MatrixClientConfig)
    (clock1 clock2 : N) (random1 random2 message1 message2 : string) :
  Inj (=) (=) enc →
  config st = Some cfg →
  (Http.sendMessageAsync J fetch JSON_parse stringifyText enc headerValue slice800
     clock1 random1 message1 st).1 ≠ [] →
  Http.url <$> (Http.sendMessageAsync J fetch JSON_parse stringifyText enc headerValue
                  slice800 clock1 random1 message1 st).1
    = Http.url <$> (Http.sendMessageAsync J fetch JSON_parse stringifyText enc headerValue
                      slice800 clock2 random2 message2 st).1 →
  clock1 = clock2 ∧ random1 = random2.
Proof.
  intros Henc Hcfg. unfold Http.sendMessageAsync. rewrite Hcfg.
  destruct (headerValue ("Bearer " +:+ botAccessToken cfg)) as [auth|e] eqn:Hauth;
    [destruct (headerValue "application/json") as [ct|e] eqn:Hct|].
  - rewrite !(apiAsync_made _ _ _ _ _ _ _ _ cfg ∅ auth ct) by done.
    cbv zeta. simpl. intros _ [= Heq].
    do 4 apply append_inj_r in Heq. apply (inj enc) in Heq.
    apply digits_dash_inj in Heq as [Hc ->]; [|apply pretty_N_digits..].
    split; [|done]. by apply (inj pretty).
  - intros Hmade. exfalso. apply Hmade.
    rewrite (apiAsync_rejected _ _ _ _ _ _ _ _ cfg ∅ e); [done..|].
    right. rewrite Hauth. by split_and!.
  - intros Hmade. exfalso. apply Hmade.
    by rewrite (apiAsync_rejected _ _ _ _ _ _ _ _ cfg ∅ e) by auto.
Qed.

Lemma send_transaction_ids_differ_witness :
  let send clock := Http.sendMessageAsync unit
                      (Demo.answering {| Http.ok := true; Http.status := 200;
                                         Http.statusText := "OK"; Http.text := Ok "" |})
                      (λ _, Ok tt) id id Demo.headerValue Demo.slice800
                      clock "9f3a" "hi" Demo.ready in
  Http.url <$> (send 1700000000000%N).1 ≠ Http.url <$> (send 1700000000001%N).1.
Proof.
  intros send Heq.
  apply (send_transaction_ids_differ unit _ _ id id _ _ Demo.ready Demo.cfg) in Heq
    as [[=] _]; [apply _|reflexivity|done].
Defined.

(** X17 (start-up checks of the entry point).  The entry point gives up
    before anything is registered or sent exactly when the bot token or the
    room identifier is unset or empty.  Otherwise the session is initialised
    with the token and room of the environment; the homeserver and the human
    identity of the environment are used whenever they are set, even to the
    empty string, and the built-in defaults only when they are unset. *)
Theorem main_requires_token_and_room
    (net : Network) (fuel : nat) (env : gmap string string)
    (onMessage : MessageCallback) (onExitCb : ExitCallback) (onErrorCb : ErrorCallback)
    (st : State) :
  let missing name := env !! name = None ∨ env !! name = Some "" in
  (missing "MATRIX_BOT_ACCESS_TOKEN" ∨ missing "MATRIX_ROOM_ID" →
     mainStart net fuel env onMessage onExitCb onErrorCb st =
       (Throw (ThrownError
                 {| message := "Missing MATRIX_BOT_ACCESS_TOKEN or MATRIX_ROOM_ID" |}), st))
  ∧ (¬ (missing "MATRIX_BOT_ACCESS_TOKEN" ∨ missing "MATRIX_ROOM_ID") →
     ∃ cfg,
       mainStart net fuel env onMessage onExitCb onErrorCb st = initAsync net fuel cfg st ∧
       env !! "MATRIX_BOT_ACCESS_TOKEN" = Some (botAccessToken cfg) ∧
       env !! "MATRIX_ROOM_ID" = Some (roomId cfg) ∧
       homeserver cfg = default "https://matrix.mopore.org" (env !! "MATRIX_HOMESERVER") ∧
       humanUserId cfg = default "@jni:matrix.mopore.org" (env !! "MATRIX_USER_ID")).
Proof.
  intros missing. unfold mainStart, mainConfig, missing. split.
  - intros Hmiss.
    assert (bool_decide (default "" (env !! "MATRIX_BOT_ACCESS_TOKEN") = "")
            || bool_decide (default "" (env !! "MATRIX_ROOM_ID") = "") = true) as ->; [|done].
    apply orb_true_iff.
    destruct Hmiss as [[-> | ->]|[-> | ->]]; simpl; auto.
  - intros Hset.
    destruct (env !! "MATRIX_BOT_ACCESS_TOKEN") as [token|] eqn:Htoken; [|tauto].
    destruct (env !! "MATRIX_ROOM_ID") as [rid|] eqn:Hroom; [|tauto].
    simpl. rewrite !bool_decide_eq_false_2 by (intros ->; tauto). simpl.
    eexists. split; [done|]. by split_and!.
Qed.

Lemma main_requires_token_and_room_witness :
  let env : gmap string string :=
    {[ "MATRIX_BOT_ACCESS_TOKEN" := "token"; "MATRIX_ROOM_ID" := "" ]} in
  mainStart Demo.unauthorized 1 env (λ _ _ _, Returns) (λ _, Returns) (λ _ _, Returns)
    initialState
  = (Throw (ThrownError
              {| message := "Missing MATRIX_BOT_ACCESS_TOKEN or MATRIX_ROOM_ID" |}),
     initialState).
Proof.
  intros env.
  apply (proj1 (main_requires_token_and_room Demo.unauthorized 1 env (λ _ _ _, Returns)
                  (λ _, Returns) (λ _ _, Returns) initialState)).
  right. by right.
Defined.

(** ** An iteration without failures *)

Section Iteration.

Variable net : Network.

Lemma joinInvited_all rids st :
  is_Some (config st) →
  (∀ j r, rids !! j = Some r → net_join net (now st + j) r = Ok tt) →
  ∃ st', joinInvited net rids st = (Ok tt, st') ∧
    same_setup st st' ∧ since st' = since st ∧ seen st' = seen st ∧
    running st' = running st ∧ trace st' = trace st ++ (ReqJoin <$> rids).
Proof.
  revert st. induction rids as [|rid rids IH]; intros st Hcfg Hok; simpl.
  - exists st. split; [done|]. split_and!; try done. by rewrite app_nil_r.
  - unfold mbind, M_bind, bind, joinRoomAsync, apiAsync.
    destruct Hcfg as [cfg Hcfg]. rewrite Hcfg.
    specialize (Hok 0 rid eq_refl) as Hrid.
    replace (now st + 0) with (now st) in Hrid by lia. rewrite Hrid.
    destruct (IH (log (ReqJoin rid) st)) as (st' & Hrun & Hs & Hc & Hseen & Hr & Ht).
    + by exists cfg.
    + intros j r Hj. rewrite now_log.
      replace (S (now st) + j) with (now st + S j) by lia. by apply Hok.
    + exists st'. split; [done|]. split_and!; try done.
      rewrite Ht. simpl. by rewrite <-(assoc_L (++)).
Qed.

End Iteration.

(** X18 (an iteration whose requests succeed).  When the poll succeeds and
    every join succeeds, the iteration joins each invited room once, in the
    order of the keys of the invitations, before it looks at any event; it
    then processes the events of the configured room only (none when that
    room is not among the joined rooms of the response), in a state whose
    dedup window and running flag are still those the iteration started
    with. *)
Theorem iteration_joins_then_processes
    (net : Network) (st : State) (cfg : MatrixClientConfig) (s : SyncResponse) :
  config st = Some cfg →
  net_sync net (now st) (sinceParam (since st)) 30000 = Ok s →
  (∀ j r, default [] (rooms s ≫= invite) !! j = Some r →
          net_join net (S (now st) + j) r = Ok tt) →
  ∃ st_b,
    tryBlock net st = processEventsAsync (targetEvents cfg s) st_b ∧
    trace st_b = trace st ++ ReqSync (sinceParam (since st)) 30000
                   :: (ReqJoin <$> default [] (rooms s ≫= invite)) ∧
    seen st_b = seen st ∧ running st_b = running st ∧ same_setup st st_b.
Proof.
  intros Hcfg Hsync Hok.
  set (st_a := if truthy (next_batch s)
               then set_since (next_batch s) (log (ReqSync (sinceParam (since st)) 30000) st)
               else log (ReqSync (sinceParam (since st)) 30000) st).
  assert (config st_a = Some cfg ∧ now st_a = S (now st) ∧ seen st_a = seen st ∧
          running st_a = running st ∧ same_setup st st_a ∧
          trace st_a = trace st ++ [ReqSync (sinceParam (since st)) 30000])
    as (Ha1 & Ha2 & Ha3 & Ha4 & Ha5 & Ha6).
  { unfold st_a. destruct (truthy (next_batch s)); split_and!; try done; apply now_log. }
  destruct (joinInvited_all net (default [] (rooms s ≫= invite)) st_a)
    as (st_b & Hjoin & Hb1 & _ & Hb3 & Hb4 & Hb5).
  { by rewrite Ha1. }
  { by rewrite Ha2. }
  exists st_b. split_and!.
  - unfold tryBlock, pollAndJoin, syncOnceAsync, apiAsync, targetEvents.
    unfold modify, get, ret, mbind, M_bind, bind. unfold mbind in Hjoin.
    rewrite Hcfg, Hsync. fold st_a.
    destruct (truthy (next_batch s)); fold st_a; rewrite Hjoin.
    all: destruct Hb1 as [-> _]; by rewrite Ha1.
  - by rewrite Hb5, Ha6, <-(assoc_L (++)).
  - congruence.
  - congruence.
  - by etrans.
Qed.

Lemma iteration_joins_then_processes_witness :
  let s := Demo.response "T2" ["!a"; "!b"] [Demo.text "e1" Demo.human "hi"] in
  ∃ st_b,
    tryBlock (Demo.steady s) Demo.ready = processEventsAsync (targetEvents Demo.cfg s) st_b ∧
    trace st_b = [ReqSync (Some "T1") 30000; ReqJoin "!a"; ReqJoin "!b"].
Proof.
  intros s.
  destruct (iteration_joins_then_processes (Demo.steady s) Demo.ready Demo.cfg s)
    as (st_b & Htry & Ht & _); [reflexivity|reflexivity|done|].
  exists st_b. split; [done|]. by rewrite Ht.
Defined.
